(** * WebCanvas: the pointer/gesture core of [DraggableImageCanvas]

    A shallow embedding of the interaction logic of
    [src/src/App.tsx] (the component [DraggableImageCanvas], revision with
    pan support) and the properties of its handlers.

    Modelling conventions.

    - A JavaScript [number] is a rational ([Qc], canonical rationals, so
      that [===] on numbers is Leibniz equality).  The two sums whose
      results the program uses as identities and as stacking orders at the
      magnitude of the clock, [Date.now() + Math.random()] and
      [now + img.id], are rounded to the nearest double as the machine
      does ([to_double]).  Positions, sizes and the zoom level are
      computed exactly; [NaN] and the infinities of IEEE doubles are
      outside the model.
    - [Set<number>] is a [gset Qc]; arrays are lists in insertion order.
    - The component state is the record [State], one field per
      [useState] cell that the pointer logic reads or writes.  A handler
      is a function from the state of the render it closed over to the
      state after all of its [set...] calls were applied, i.e. one event
      is processed to completion before the next one is dispatched.
      Values a handler reads from its closure are read from the
      argument state; functional updates ([setImages(prev => ...)])
      receive the pending state.
    - [Date.now()], [Math.random()], [window.innerWidth] and the bounding
      rectangle of the canvas element are inputs of the handler that
      reads them. *)

From Stdlib Require Import QArith Qcanon Lqa ZArith Qround Qpower.
From stdpp Require Import base numbers gmap list strings.

Local Open Scope Qc_scope.

(** ** Numbers *)

(** [Math.max] and [Math.min] on two arguments. *)
Definition Math_max (a b : Qc) : Qc := if decide (a ≤ b) then b else a.
Definition Math_min (a b : Qc) : Qc := if decide (a ≤ b) then a else b.

(** [Math.floor(i / n)] and [i % n] on array indices. *)
Definition floor_div (i n : nat) : Qc := Qc_of_Z (Z.of_nat (i / n)).
Definition modulo (i n : nat) : Qc := Qc_of_Z (Z.of_nat (i mod n)).

(** *** Double precision

    The binade of a positive rational [x] is the exponent [k] with
    [2^k <= x < 2^(k+1)]. *)
Definition binade (x : Q) : Z :=
  if Qle_bool 1 x then Z.log2 (Qfloor x) else (- Z.log2_up (Qceiling (/ x)))%Z.

(** Rounding to the nearest integer, a tie going to the even one. *)
Definition round_half_even (x : Q) : Z :=
  let f := Qfloor x in
  match (x - inject_Z f ?= 1 # 2)%Q with
  | Lt => f
  | Gt => (f + 1)%Z
  | Eq => if Z.even f then f else (f + 1)%Z
  end.

(** The double nearest to a positive rational: 53 significant bits, so
    the grid in the binade [k] has spacing [2^(k-52)], and never finer
    than [2^-1074] (subnormal numbers).  Overflow to [Infinity] (beyond
    [2^1024]) is not modelled. *)
Definition round_to_double (x : Q) : Q :=
  let e := Z.max (binade x - 52) (-1074) in
  (inject_Z (round_half_even (x / 2 ^ e)) * 2 ^ e)%Q.

(** The value of a sum, product or literal as a [number]: the exact result
    rounded to the nearest double, ties to even. *)
Definition to_double (x : Qc) : Qc :=
  match x ?= 0 with
  | Eq => 0
  | Gt => Q2Qc (round_to_double x)
  | Lt => - Q2Qc (round_to_double (- x))
  end.

Global Arguments to_double : simpl never.

(** Truthiness of a [number | null] cell: [null] and [0] are falsy. *)
Definition truthy (v : option Qc) : bool :=
  match v with
  | Some n => bool_decide (n ≠ 0)
  | None => false
  end.

(** ** Data model *)

Module Point.
  (** The [{ x, y }] literals of [dragOffset], [lastMousePos],
      [panOffset] and [panStartPos]. *)
Record t : Type := mk { x : Qc; y : Qc }.
End Point.

Module Box.
  (** The [selectionBox] cell. *)
Record t : Type := mk { startX : Qc; startY : Qc; endX : Qc; endY : Qc }.
End Box.

Module Rect.
  (** The fields of [getBoundingClientRect()] that the handlers read. *)
Record t : Type := mk { left : Qc; top : Qc; width : Qc; height : Qc }.
End Rect.

Module ImageItem.
  (** [interface ImageItem].  The payload fields ([file], [src], [name],
      [size], [type], [uploadedAt]) are never read by the pointer logic
      and are left out. *)
Record t : Type := mk {
    id : Qc;
    x : Qc;
    y : Qc;
    width : Qc;
    height : Qc;
    originalWidth : Qc;
    originalHeight : Qc;
    zIndex : Qc
  }.

  (** The object spreads [{ ...img, x: ..., y: ... }] and
      [{ ...img, zIndex: ... }]. *)
Definition with_xy (img : t) (nx ny : Qc) : t :=
    mk (id img) nx ny (width img) (height img)
       (originalWidth img) (originalHeight img) (zIndex img).
Definition with_zIndex (img : t) (z : Qc) : t :=
    mk (id img) (x img) (y img) (width img) (height img)
       (originalWidth img) (originalHeight img) z.
End ImageItem.

Module MouseEvent.
  (** The fields of a mouse event that the handlers read. *)
Record t : Type := mk {
    clientX : Qc;
    clientY : Qc;
    button : Z;
    ctrlKey : bool;
    metaKey : bool
  }.
End MouseEvent.

(** The [useState] cells of the component. *)
Record State : Type := mkState {
  images : list ImageItem.t;
  selectedImage : option Qc;
  selectedImages : gset Qc;
  dragOffset : Point.t;
  isDraggingImage : bool;
  isDraggingGroup : bool;
  isSelecting : bool;
  selectionBox : Box.t;
  lastMousePos : Point.t;
  zoomLevel : Qc;
  panOffset : Point.t;
  isPanning : bool;
  panStartPos : Point.t
}.

(** The initial values passed to [useState]. *)
Definition initial_state : State :=
  {| images := [];
     selectedImage := None;
     selectedImages := ∅;
     dragOffset := Point.mk 0 0;
     isDraggingImage := false;
     isDraggingGroup := false;
     isSelecting := false;
     selectionBox := Box.mk 0 0 0 0;
     lastMousePos := Point.mk 0 0;
     zoomLevel := 1;
     panOffset := Point.mk 0 0;
     isPanning := false;
     panStartPos := Point.mk 0 0 |}.

(** *** State setters

    [setImages] and [setPanOffset] are called with an updater function,
    the other setters with a value. *)

Definition setImages (f : list ImageItem.t → list ImageItem.t) (s : State) : State :=
  mkState (f (images s)) (selectedImage s) (selectedImages s) (dragOffset s)
    (isDraggingImage s) (isDraggingGroup s) (isSelecting s) (selectionBox s)
    (lastMousePos s) (zoomLevel s) (panOffset s) (isPanning s) (panStartPos s).

Definition setSelectedImage (v : option Qc) (s : State) : State :=
  mkState (images s) v (selectedImages s) (dragOffset s)
    (isDraggingImage s) (isDraggingGroup s) (isSelecting s) (selectionBox s)
    (lastMousePos s) (zoomLevel s) (panOffset s) (isPanning s) (panStartPos s).

Definition setSelectedImages (v : gset Qc) (s : State) : State :=
  mkState (images s) (selectedImage s) v (dragOffset s)
    (isDraggingImage s) (isDraggingGroup s) (isSelecting s) (selectionBox s)
    (lastMousePos s) (zoomLevel s) (panOffset s) (isPanning s) (panStartPos s).

Definition setDragOffset (v : Point.t) (s : State) : State :=
  mkState (images s) (selectedImage s) (selectedImages s) v
    (isDraggingImage s) (isDraggingGroup s) (isSelecting s) (selectionBox s)
    (lastMousePos s) (zoomLevel s) (panOffset s) (isPanning s) (panStartPos s).

Definition setIsDraggingImage (v : bool) (s : State) : State :=
  mkState (images s) (selectedImage s) (selectedImages s) (dragOffset s)
    v (isDraggingGroup s) (isSelecting s) (selectionBox s)
    (lastMousePos s) (zoomLevel s) (panOffset s) (isPanning s) (panStartPos s).

Definition setIsDraggingGroup (v : bool) (s : State) : State :=
  mkState (images s) (selectedImage s) (selectedImages s) (dragOffset s)
    (isDraggingImage s) v (isSelecting s) (selectionBox s)
    (lastMousePos s) (zoomLevel s) (panOffset s) (isPanning s) (panStartPos s).

Definition setIsSelecting (v : bool) (s : State) : State :=
  mkState (images s) (selectedImage s) (selectedImages s) (dragOffset s)
    (isDraggingImage s) (isDraggingGroup s) v (selectionBox s)
    (lastMousePos s) (zoomLevel s) (panOffset s) (isPanning s) (panStartPos s).

Definition setSelectionBox (f : Box.t → Box.t) (s : State) : State :=
  mkState (images s) (selectedImage s) (selectedImages s) (dragOffset s)
    (isDraggingImage s) (isDraggingGroup s) (isSelecting s) (f (selectionBox s))
    (lastMousePos s) (zoomLevel s) (panOffset s) (isPanning s) (panStartPos s).

Definition setLastMousePos (v : Point.t) (s : State) : State :=
  mkState (images s) (selectedImage s) (selectedImages s) (dragOffset s)
    (isDraggingImage s) (isDraggingGroup s) (isSelecting s) (selectionBox s)
    v (zoomLevel s) (panOffset s) (isPanning s) (panStartPos s).

Definition setZoomLevel (v : Qc) (s : State) : State :=
  mkState (images s) (selectedImage s) (selectedImages s) (dragOffset s)
    (isDraggingImage s) (isDraggingGroup s) (isSelecting s) (selectionBox s)
    (lastMousePos s) v (panOffset s) (isPanning s) (panStartPos s).

Definition setPanOffset (f : Point.t → Point.t) (s : State) : State :=
  mkState (images s) (selectedImage s) (selectedImages s) (dragOffset s)
    (isDraggingImage s) (isDraggingGroup s) (isSelecting s) (selectionBox s)
    (lastMousePos s) (zoomLevel s) (f (panOffset s)) (isPanning s) (panStartPos s).

Definition setIsPanning (v : bool) (s : State) : State :=
  mkState (images s) (selectedImage s) (selectedImages s) (dragOffset s)
    (isDraggingImage s) (isDraggingGroup s) (isSelecting s) (selectionBox s)
    (lastMousePos s) (zoomLevel s) (panOffset s) v (panStartPos s).

Definition setPanStartPos (v : Point.t) (s : State) : State :=
  mkState (images s) (selectedImage s) (selectedImages s) (dragOffset s)
    (isDraggingImage s) (isDraggingGroup s) (isSelecting s) (selectionBox s)
    (lastMousePos s) (zoomLevel s) (panOffset s) (isPanning s) v.

(** The [set...] calls of a handler body, applied in program order. *)
Definition run (s : State) (calls : list (State → State)) : State :=
  foldl (λ acc call, call acc) s calls.

(** ** Coordinate transform *)

(** One axis of the pointer-to-canvas conversion that
    [handleCanvasMouseDown] and the rubber-band branch of
    [handleMouseMove] both spell out:
    [(e.clientX - rect.left - centerX) / zoomLevel + centerX - panOffset.x]
    with [centerX = rect.width / 2]. *)
Definition toCanvasSpace (client rectStart rectSize zoom pan : Qc) : Qc :=
  let center := rectSize / 2 in
  (client - rectStart - center) / zoom + center - pan.

(** One axis of the rendering transform of the zoom container, whose style
    is [transform: scale(zoomLevel) translate(panOffset)] with
    [transformOrigin: center center]: the viewport coordinate at which the
    canvas-space coordinate [canvas] is drawn. *)
Definition toViewport (canvas rectStart rectSize zoom pan : Qc) : Qc :=
  let center := rectSize / 2 in
  (canvas - center + pan) * zoom + center + rectStart.

(** ** Handlers registered on [document] *)

Definition handleMouseMove (e : MouseEvent.t) (canvasElement : option Rect.t)
    (s : State) : State :=
  let clientX := MouseEvent.clientX e in
  let clientY := MouseEvent.clientY e in
  let s1 := setLastMousePos (Point.mk clientX clientY) s in
  if isDraggingImage s && truthy (selectedImage s) then
    let deltaX := (clientX - Point.x (dragOffset s)) / zoomLevel s in
    let deltaY := (clientY - Point.y (dragOffset s)) / zoomLevel s in
    run s1
      [ setImages (fmap (λ img,
          if decide (Some (ImageItem.id img) = selectedImage s)
          then ImageItem.with_xy img (ImageItem.x img + deltaX) (ImageItem.y img + deltaY)
          else img));
        setDragOffset (Point.mk clientX clientY) ]
  else if isDraggingGroup s && bool_decide (0 < size (selectedImages s))%nat then
    let deltaX := (clientX - Point.x (dragOffset s)) / zoomLevel s in
    let deltaY := (clientY - Point.y (dragOffset s)) / zoomLevel s in
    run s1
      [ setImages (fmap (λ img,
          if decide (ImageItem.id img ∈ selectedImages s)
          then ImageItem.with_xy img (ImageItem.x img + deltaX) (ImageItem.y img + deltaY)
          else img));
        setDragOffset (Point.mk clientX clientY) ]
  else if isPanning s then
    let deltaX := clientX - Point.x (panStartPos s) in
    let deltaY := clientY - Point.y (panStartPos s) in
    run s1
      [ setPanOffset (λ prev, Point.mk (Point.x prev + deltaX) (Point.y prev + deltaY));
        setPanStartPos (Point.mk clientX clientY) ]
  else if isSelecting s then
    match canvasElement with
    | Some rect =>
        let x := toCanvasSpace clientX (Rect.left rect) (Rect.width rect)
                   (zoomLevel s) (Point.x (panOffset s)) in
        let y := toCanvasSpace clientY (Rect.top rect) (Rect.height rect)
                   (zoomLevel s) (Point.y (panOffset s)) in
        run s1
          [ setSelectionBox (λ prev, Box.mk (Box.startX prev) (Box.startY prev) x y) ]
    | None => s1
    end
  else s1.

(** The test of the [forEach] body in [handleMouseUp]: the centre of the
    image lies in the closed box. *)
Definition center_in_box (left right top bottom : Qc) (img : ImageItem.t) : Prop :=
  let imgCenterX := ImageItem.x img + ImageItem.width img / 2 in
  let imgCenterY := ImageItem.y img + ImageItem.height img / 2 in
  left ≤ imgCenterX ∧ imgCenterX ≤ right ∧ top ≤ imgCenterY ∧ imgCenterY ≤ bottom.

Global Instance center_in_box_dec l r t b img : Decision (center_in_box l r t b img).
Proof. unfold center_in_box. apply _. Defined.

(** [selectedIds] as built by the [forEach] loop of [handleMouseUp]. *)
Definition box_selection (b : Box.t) (imgs : list ImageItem.t) : gset Qc :=
  let left := Math_min (Box.startX b) (Box.endX b) in
  let right := Math_max (Box.startX b) (Box.endX b) in
  let top := Math_min (Box.startY b) (Box.endY b) in
  let bottom := Math_max (Box.startY b) (Box.endY b) in
  foldl (λ selectedIds img,
           if decide (center_in_box left right top bottom img)
           then {[ ImageItem.id img ]} ∪ selectedIds
           else selectedIds)
        ∅ imgs.

Definition handleMouseUp (s : State) : State :=
  let s1 :=
    if isSelecting s then
      run s [ setSelectedImages (box_selection (selectionBox s) (images s));
              setIsSelecting false ]
    else s in
  run s1
    [ setIsDraggingImage false;
      setIsDraggingGroup false;
      setIsPanning false;
      setSelectedImage None ].

Definition zoomFactor : Qc := Q2Qc (1 # 10).
Definition zoomMin : Qc := Q2Qc (1 # 10).
Definition zoomMax : Qc := Qc_of_Z 3.

Definition handleWheel (deltaY : Qc) (s : State) : State :=
  let delta := if decide (0 < deltaY) then - zoomFactor else zoomFactor in
  let newZoom := Math_max zoomMin (Math_min zoomMax (zoomLevel s + delta)) in
  setZoomLevel newZoom s.

(** ** Handlers of the component body *)

(** [handleImageMouseDown(e, imageId)]; [now] is the value of
    [Date.now()] read by the bring-to-front update. *)
Definition handleImageMouseDown (e : MouseEvent.t) (imageId : Qc) (now : Z)
    (s : State) : State :=
  if MouseEvent.ctrlKey e || MouseEvent.metaKey e then
    let newSelected :=
      if decide (imageId ∈ selectedImages s)
      then selectedImages s ∖ {[ imageId ]}
      else {[ imageId ]} ∪ selectedImages s in
    setSelectedImages newSelected s
  else if bool_decide (imageId ∈ selectedImages s)
          && bool_decide (1 < size (selectedImages s))%nat then
    run s
      [ setIsDraggingGroup true;
        setDragOffset (Point.mk (MouseEvent.clientX e) (MouseEvent.clientY e));
        setImages (fmap (λ img,
          if decide (ImageItem.id img ∈ selectedImages s)
          then ImageItem.with_zIndex img (to_double (Qc_of_Z now + ImageItem.id img))
          else img)) ]
  else
    run s
      [ setSelectedImage (Some imageId);
        setSelectedImages {[ imageId ]};
        setIsDraggingImage true;
        setDragOffset (Point.mk (MouseEvent.clientX e) (MouseEvent.clientY e));
        setImages (fmap (λ img,
          if decide (ImageItem.id img = imageId)
          then ImageItem.with_zIndex img (Qc_of_Z now)
          else img)) ].

(** [handleCanvasMouseDown(e)]; [onCanvas] is the test
    [e.target === e.currentTarget] and [rect] the bounding rectangle of
    [e.currentTarget]. *)
Definition handleCanvasMouseDown (e : MouseEvent.t) (onCanvas : bool)
    (rect : Rect.t) (s : State) : State :=
  if onCanvas then
    if decide (MouseEvent.button e = 1%Z) then
      run s
        [ setIsPanning true;
          setPanStartPos (Point.mk (MouseEvent.clientX e) (MouseEvent.clientY e)) ]
    else if decide (MouseEvent.button e = 0%Z) then
      let x := toCanvasSpace (MouseEvent.clientX e) (Rect.left rect) (Rect.width rect)
                 (zoomLevel s) (Point.x (panOffset s)) in
      let y := toCanvasSpace (MouseEvent.clientY e) (Rect.top rect) (Rect.height rect)
                 (zoomLevel s) (Point.y (panOffset s)) in
      run s
        [ setSelectedImages ∅;
          setIsSelecting true;
          setSelectionBox (λ _, Box.mk x y x y) ]
    else s
  else s.

Definition removeImage (id : Qc) (s : State) : State :=
  setImages (filter (λ img, ImageItem.id img ≠ id)) s.

Definition resetImagePositions (s : State) : State :=
  run s
    [ setImages (imap (λ index img,
        ImageItem.with_xy img
          (Qc_of_Z 50 + modulo index 4 * Qc_of_Z 220)
          (Qc_of_Z 200 + floor_div index 4 * Qc_of_Z 220)));
      setSelectedImages ∅ ].

Definition resetZoom (s : State) : State :=
  run s [ setZoomLevel 1; setPanOffset (λ _, Point.mk 0 0) ].

Definition deleteSelectedImages (s : State) : State :=
  run s
    [ setImages (filter (λ img, ImageItem.id img ∉ selectedImages s));
      setSelectedImages ∅ ].

(** *** Image creation

    The [img.onload] callback of [addImage], which runs once the file
    passed the [image/] type guard and was read and decoded; a file that
    is rejected or fails to decode changes no state.  The readings of the
    outside world the callback makes are collected in [AddEnv.t]: the two
    [Date.now()] calls (for [id] and for [zIndex]), the [Math.random()]
    calls and the window size. *)
Module AddEnv.
Record t : Type := mk {
    now_id : Z;
    random_id : Qc;
    now_zIndex : Z;
    random_x : Qc;
    random_y : Qc;
    innerWidth : Qc;
    innerHeight : Qc
  }.
End AddEnv.

Definition newImage (imgWidth imgHeight : Qc) (dropX dropY : option Qc)
    (env : AddEnv.t) : ImageItem.t :=
  let maxSize := Qc_of_Z 200 in
  let aspectRatio := imgWidth / imgHeight in
  let '(width, height) :=
    if decide (1 < aspectRatio)
    then (maxSize, maxSize / aspectRatio)
    else (maxSize * aspectRatio, maxSize) in
  let '(x, y) :=
    match dropX, dropY with
    | Some dropX, Some dropY =>
        (Math_max 0 (Math_min (dropX - width / 2) (AddEnv.innerWidth env - width)),
         Math_max (Qc_of_Z 100)
           (Math_min (dropY - height / 2) (AddEnv.innerHeight env - height - Qc_of_Z 50)))
    | _, _ =>
        (AddEnv.random_x env * (AddEnv.innerWidth env - width - Qc_of_Z 100) + Qc_of_Z 50,
         AddEnv.random_y env * (AddEnv.innerHeight env - height - Qc_of_Z 300) + Qc_of_Z 200)
    end in
  {| ImageItem.id := to_double (Qc_of_Z (AddEnv.now_id env) + AddEnv.random_id env);
     ImageItem.x := x;
     ImageItem.y := y;
     ImageItem.width := width;
     ImageItem.height := height;
     ImageItem.originalWidth := imgWidth;
     ImageItem.originalHeight := imgHeight;
     ImageItem.zIndex := Qc_of_Z (AddEnv.now_zIndex env) |}.

Definition addImage (imgWidth imgHeight : Qc) (dropX dropY : option Qc)
    (env : AddEnv.t) (s : State) : State :=
  setImages (λ prev, prev ++ [newImage imgWidth imgHeight dropX dropY env]) s.

(** ** The event loop *)

Inductive Event : Type :=
  | MouseMove (e : MouseEvent.t) (canvasElement : option Rect.t)
  | MouseUp
  | Wheel (deltaY : Qc)
  | ImageMouseDown (e : MouseEvent.t) (imageId : Qc) (now : Z)
  | CanvasMouseDown (e : MouseEvent.t) (onCanvas : bool) (rect : Rect.t)
  | ClickRemove (id : Qc)
  | ClickArrange
  | ClickResetView
  | ClickDeleteSelected
  | ImageLoaded (imgWidth imgHeight : Qc) (dropX dropY : option Qc) (env : AddEnv.t).

Definition step (s : State) (ev : Event) : State :=
  match ev with
  | MouseMove e canvasElement => handleMouseMove e canvasElement s
  | MouseUp => handleMouseUp s
  | Wheel deltaY => handleWheel deltaY s
  | ImageMouseDown e imageId now => handleImageMouseDown e imageId now s
  | CanvasMouseDown e onCanvas rect => handleCanvasMouseDown e onCanvas rect s
  | ClickRemove id => removeImage id s
  | ClickArrange => resetImagePositions s
  | ClickResetView => resetZoom s
  | ClickDeleteSelected => deleteSelectedImages s
  | ImageLoaded w h dx dy env => addImage w h dx dy env s
  end.

Definition steps (s : State) (evs : list Event) : State := foldl step s evs.

(** The ids of the rendered image cards. *)
Definition ids (s : State) : list Qc := ImageItem.id <$> images s.

(** [Math.random()] lies in [[0, 1)]. *)
Definition is_random (r : Qc) : Prop := 0 ≤ r ∧ r < 1.

(** [Date.now()] is a whole number of milliseconds since the epoch; a
    time value is at most 8.64e15. *)
Definition is_clock (now : Z) : Prop := (0 ≤ now ≤ 8640000000000000)%Z.

(** What the page can dispatch in state [s]: the per-image handlers are
    attached to the cards of the images of [s]; a decoded picture has a
    positive width and height; the random readings lie in [[0, 1)]. *)
Definition enabled (s : State) (ev : Event) : Prop :=
  match ev with
  | ImageMouseDown _ imageId _ => imageId ∈ ids s
  | ClickRemove id => id ∈ ids s
  | ImageLoaded imgWidth imgHeight _ _ env =>
      0 < imgWidth ∧ 0 < imgHeight
      ∧ is_random (AddEnv.random_id env)
      ∧ is_random (AddEnv.random_x env)
      ∧ is_random (AddEnv.random_y env)
  | _ => True
  end.

Inductive reachable : State → Prop :=
  | reachable_initial : reachable initial_state
  | reachable_step s ev : reachable s → enabled s ev → reachable (step s ev).

Global Instance enabled_dec s ev : Decision (enabled s ev).
Proof. destruct ev; unfold enabled, is_random; apply _. Defined.

(** Every event of the sequence can be dispatched in the state in which
    it arrives. *)
Fixpoint trace_enabled (s : State) (evs : list Event) : Prop :=
  match evs with
  | [] => True
  | ev :: evs => enabled s ev ∧ trace_enabled (step s ev) evs
  end.

Global Instance trace_enabled_dec s evs : Decision (trace_enabled s evs).
Proof. revert s. induction evs; simpl; apply _. Defined.

(** The selection invariant of the data model: every selected id is the id
    of an image of the store. *)
Definition selection_valid (s : State) : Prop :=
  ∀ id, id ∈ selectedImages s → id ∈ ids s.

(** ** Vocabulary of the properties *)

(** Clamping as the prose has it: values below [lo] become [lo], values
    above [hi] become [hi], the others are kept. *)
Definition clamp (lo hi v : Qc) : Qc :=
  if decide (v < lo) then lo else if decide (hi < v) then hi else v.

(** The viewport invariant: the zoom level lies in [[0.1, 3]]. *)
Definition zoom_in_range (s : State) : Prop :=
  zoomMin ≤ zoomLevel s ≤ zoomMax.

(** The [(x, y)] positions of the images, in array order. *)
Definition positions (s : State) : list (Qc * Qc) :=
  (λ img, (ImageItem.x img, ImageItem.y img)) <$> images s.

(** The stacking orders of the images, in array order, as plain
    fractions. *)
Definition stacking (s : State) : list Q :=
  (λ img, this (ImageItem.zIndex img)) <$> images s.

(** [c] lies between the two bounds [a] and [b], given in either order,
    bounds included. *)
Definition between (a b c : Qc) : Prop :=
  (a ≤ c ∧ c ≤ b) ∨ (b ≤ c ∧ c ≤ a).

(** The centre [(x + width / 2, y + height / 2)] of [img] lies in the
    closed axis-aligned box spanned by the two corners of [b]. *)
Definition center_inside (b : Box.t) (img : ImageItem.t) : Prop :=
  between (Box.startX b) (Box.endX b) (ImageItem.x img + ImageItem.width img / 2)
  ∧ between (Box.startY b) (Box.endY b) (ImageItem.y img + ImageItem.height img / 2).

(** The same band drawn from the other corner. *)
Definition swap_corners (b : Box.t) : Box.t :=
  Box.mk (Box.endX b) (Box.endY b) (Box.startX b) (Box.startY b).

(** The events that can be dispatched between the press and the release
    of one gesture: pointer moves, wheel notches, and completions of image
    loads started earlier. *)
Definition gesture_event (ev : Event) : Prop :=
  match ev with
  | MouseMove _ _ | Wheel _ | ImageLoaded _ _ _ _ _ => True
  | _ => False
  end.

(** Bring-to-front as the prose has it, first half: in the images
    [after] a bring-to-front of the selection [sel], every selected image
    is above every unselected one. *)
Definition selected_above_rest (sel : gset Qc) (after : list ImageItem.t) : Prop :=
  ∀ i j a b,
    after !! i = Some a → after !! j = Some b →
    ImageItem.id a ∈ sel → ImageItem.id b ∉ sel →
    ImageItem.zIndex b < ImageItem.zIndex a.

(** Second half: two selected images are stacked [after] the operation
    as they were [before] it (same array positions). *)
Definition relative_order_kept (sel : gset Qc)
    (before after : list ImageItem.t) : Prop :=
  ∀ i j a b a' b',
    before !! i = Some a → before !! j = Some b →
    after !! i = Some a' → after !! j = Some b' →
    ImageItem.id a ∈ sel → ImageItem.id b ∈ sel →
    ImageItem.zIndex b < ImageItem.zIndex a →
    ImageItem.zIndex b' < ImageItem.zIndex a'.

(** Identities as the prose has them: the ids of the images, which sit in
    the array in creation order, increase strictly along the array. *)
Definition ids_strictly_increasing (s : State) : Prop :=
  ∀ i j a b, (i < j)%nat → ids s !! i = Some a → ids s !! j = Some b → a < b.

(** *** Sample data

    A 1280 x 720 window, a 400 x 300 picture, and the environment of an
    [addImage] completion at clock reading [now] with random fraction
    [rnd] for the id. *)
Definition sample_rect : Rect.t :=
  Rect.mk 0 0 (Qc_of_Z 1280) (Qc_of_Z 720).

Definition sample_env (now : Z) (rnd : Qc) : AddEnv.t :=
  AddEnv.mk now rnd now (Q2Qc (1 # 2)) (Q2Qc (1 # 2)) (Qc_of_Z 1280) (Qc_of_Z 720).

Definition sample_load (now : Z) (rnd : Qc) : Event :=
  ImageLoaded (Qc_of_Z 400) (Qc_of_Z 300) None None (sample_env now rnd).

Definition sample_press (x y : Z) (ctrl : bool) : MouseEvent.t :=
  MouseEvent.mk (Qc_of_Z x) (Qc_of_Z y) 0 ctrl false.

(** Five pictures loaded one after the other. *)
Definition five_images : State :=
  steps initial_state
    [ sample_load 1000 (Q2Qc (1 # 4)); sample_load 1001 (Q2Qc (1 # 4));
      sample_load 1002 (Q2Qc (1 # 4)); sample_load 1003 (Q2Qc (1 # 4));
      sample_load 1004 (Q2Qc (1 # 4)) ].

(** Three 20 x 20 pictures with centres (10,10), (50,50) and (200,200). *)
Definition three_centers : list ImageItem.t :=
  [ ImageItem.mk (Qc_of_Z 1) 0 0 (Qc_of_Z 20) (Qc_of_Z 20)
      (Qc_of_Z 20) (Qc_of_Z 20) (Qc_of_Z 1);
    ImageItem.mk (Qc_of_Z 2) (Qc_of_Z 40) (Qc_of_Z 40) (Qc_of_Z 20) (Qc_of_Z 20)
      (Qc_of_Z 20) (Qc_of_Z 20) (Qc_of_Z 2);
    ImageItem.mk (Qc_of_Z 3) (Qc_of_Z 190) (Qc_of_Z 190) (Qc_of_Z 20) (Qc_of_Z 20)
      (Qc_of_Z 20) (Qc_of_Z 20) (Qc_of_Z 3) ].

(** A rubber band in progress over them, with the given start and
    current corners, while the ids [prior] are still selected. *)
Definition banding (startX startY currentX currentY : Z) (prior : gset Qc) : State :=
  run initial_state
    [ setImages (λ _, three_centers);
      setSelectedImages prior;
      setIsSelecting true;
      setSelectionBox (λ _, Box.mk (Qc_of_Z startX) (Qc_of_Z startY)
                               (Qc_of_Z currentX) (Qc_of_Z currentY)) ].

(** Load one picture (its id is 1000.25), press on it, release, then
    click its delete button. *)
Definition select_then_remove : list Event :=
  [ sample_load 1000 (Q2Qc (1 # 4));
    ImageMouseDown (sample_press 10 10 false) (Q2Qc (4001 # 4)) 2000;
    MouseUp;
    ClickRemove (Q2Qc (4001 # 4)) ].

(** Four pictures A, B, C, D are loaded at the clock readings 1000, 2000,
    60000 and 61000 (ids 1000.25, 2000.25, 60000.25, 61000.25).  C is
    clicked, D is added to the selection with the modifier key, and the
    two are group-dragged at 70000; then A is clicked at 75000 and B is
    added to the selection with the modifier key.  The next plain press on
    A starts a group drag of A and B. *)
Definition group_drag_setup : list Event :=
  [ sample_load 1000 (Q2Qc (1 # 4)); sample_load 2000 (Q2Qc (1 # 4));
    sample_load 60000 (Q2Qc (1 # 4)); sample_load 61000 (Q2Qc (1 # 4));
    ImageMouseDown (sample_press 10 10 false) (Q2Qc (240001 # 4)) 65000;
    MouseUp;
    ImageMouseDown (sample_press 10 10 true) (Q2Qc (244001 # 4)) 65000;
    ImageMouseDown (sample_press 10 10 false) (Q2Qc (240001 # 4)) 70000;
    MouseUp;
    ImageMouseDown (sample_press 10 10 false) (Q2Qc (4001 # 4)) 75000;
    MouseUp;
    ImageMouseDown (sample_press 10 10 true) (Q2Qc (8001 # 4)) 75000 ].

(** A clock reading of November 2025.  Between [2^40] and [2^41] doubles
    are [2^-12] apart, between [2^41] and [2^42] they are [2^-11] apart. *)
Definition sample_clock : Z := 1762136780000.

(** Two pictures A and B loaded in the same millisecond with the random
    fractions 1/4 and 1/4 + 2^-12 (two different ids); A is clicked and B
    is added to the selection with the modifier key. *)
Definition group_tie_setup : list Event :=
  [ sample_load sample_clock (Q2Qc (1 # 4));
    sample_load sample_clock (Q2Qc (1025 # 4096));
    ImageMouseDown (sample_press 10 10 false)
      (Qc_of_Z sample_clock + Q2Qc (1 # 4)) (sample_clock + 1000);
    MouseUp;
    ImageMouseDown (sample_press 10 10 true)
      (Qc_of_Z sample_clock + Q2Qc (1025 # 4096)) (sample_clock + 1000) ].

(** Two pictures whose loads complete within the same millisecond. *)
Definition same_millisecond (rnd1 rnd2 : Qc) : list Event :=
  [ sample_load 1000 rnd1; sample_load 1000 rnd2 ].

(** Two pictures whose loads complete in consecutive milliseconds, the
    first with a random fraction just below 1, the second with one just
    above 0. *)
Definition consecutive_milliseconds : list Event :=
  [ sample_load sample_clock (Q2Qc (99995 # 100000));
    sample_load (sample_clock + 1) (Q2Qc (5 # 100000)) ].

(** ** Vocabulary of the further properties *)

(** The pointer position carried by a mouse event. *)
Definition pointer (e : MouseEvent.t) : Point.t :=
  Point.mk (MouseEvent.clientX e) (MouseEvent.clientY e).

(** A run of pointer moves, each with the canvas element that
    [document.querySelector] returns at that time. *)
Definition move_events (moves : list (MouseEvent.t * option Rect.t)) : list Event :=
  (λ m, MouseMove m.1 m.2) <$> moves.

(** Where the pointer is after a run of moves that started at [p0]. *)
Definition last_pointer (p0 : Point.t) (moves : list (MouseEvent.t * option Rect.t))
    : Point.t :=
  foldl (λ _ m, pointer m.1) p0 moves.

(** The number of gesture flags that are set. *)
Definition modes (s : State) : nat :=
  (Nat.b2n (isDraggingImage s) + Nat.b2n (isDraggingGroup s)
   + Nat.b2n (isSelecting s) + Nat.b2n (isPanning s))%nat.

(** A button press, on an image card or on the canvas. *)
Definition is_press (ev : Event) : Prop :=
  match ev with
  | ImageMouseDown _ _ _ | CanvasMouseDown _ _ _ => True
  | _ => False
  end.

(** Every press of the sequence arrives while no gesture flag is set
    (each press follows the release of the previous gesture). *)
Fixpoint presses_when_idle (s : State) (evs : list Event) : Prop :=
  match evs with
  | [] => True
  | ev :: evs =>
      (is_press ev → modes s = 0%nat) ∧ presses_when_idle (step s ev) evs
  end.

(** What an image keeps for its whole life: id, displayed size and
    original size. *)
Definition shape (img : ImageItem.t) : Qc * Qc * Qc * Qc * Qc :=
  (ImageItem.id img, ImageItem.width img, ImageItem.height img,
   ImageItem.originalWidth img, ImageItem.originalHeight img).

Definition shapes (s : State) : list (Qc * Qc * Qc * Qc * Qc) :=
  shape <$> images s.

(** No per-image delete of the sequence hits an image that is selected
    when the click arrives. *)
Fixpoint deletes_unselected (s : State) (evs : list Event) : Prop :=
  match evs with
  | [] => True
  | ev :: evs =>
      match ev with
      | ClickRemove id => id ∉ selectedImages s
      | _ => True
      end ∧ deletes_unselected (step s ev) evs
  end.

(** The canvas-space point under the pointer of [e], for the bounding
    rectangle [rect] of the canvas, at zoom level [zoom] and pan offset
    [pan]. *)
Definition band_corner (zoom : Qc) (pan : Point.t) (e : MouseEvent.t)
    (rect : Rect.t) : Qc * Qc :=
  (toCanvasSpace (MouseEvent.clientX e) (Rect.left rect) (Rect.width rect)
     zoom (Point.x pan),
   toCanvasSpace (MouseEvent.clientY e) (Rect.top rect) (Rect.height rect)
     zoom (Point.y pan)).

(** The current corner of a rubber band after a run of moves: the canvas
    point of the last move that found the canvas element, or [start] when
    there is none. *)
Definition band_end (zoom : Qc) (pan : Point.t) (start : Qc * Qc)
    (moves : list (MouseEvent.t * option Rect.t)) : Qc * Qc :=
  foldl (λ corner m,
           match m.2 with
           | Some rect => band_corner zoom pan m.1 rect
           | None => corner
           end) start moves.

(** The id component of a [shape]. *)
Definition shape_id (sh : Qc * Qc * Qc * Qc * Qc) : Qc := sh.1.1.1.1.

Global Instance deletes_unselected_dec s evs : Decision (deletes_unselected s evs).
Proof. revert s. induction evs as [|[] evs IH]; simpl; apply _. Defined.

(** ** Import, clipboard and keyboard handlers

    These handlers end in calls of [addImage] or of
    [copyImageToClipboard], whose work (reading and decoding a file,
    writing to the clipboard) happens outside the component state.  They
    are modelled up to those calls: a handler returns the calls it makes,
    in order. *)

Module File.
(** The fields of a [File] that the handlers read. *)
Record t : Type := mk { name : string; type : string }.
End File.

(** The guard [file.type.startsWith('image/')] of [addImage] and of
    [handleDrop]. *)
Definition is_image_file (file : File.t) : bool :=
  String.prefix "image/" (File.type file).

(** A call [addImage(file, dropX, dropY)] that passed the type guard of
    [addImage]: the file is being read, and an [ImageLoaded] event with
    these drop coordinates follows if it decodes. *)
Module Load.
Record t : Type := mk { file : File.t; dropX : option Qc; dropY : option Qc }.
End Load.

(** The synchronous part of [addImage]: nothing is started for a file that
    is not an image. *)
Definition addImage_call (file : File.t) (dropX dropY : option Qc) : list Load.t :=
  if is_image_file file then [Load.mk file dropX dropY] else [].

(** [handleFileSelect]: every chosen file is passed to [addImage] without
    drop coordinates. *)
Definition handleFileSelect (files : list File.t) : list Load.t :=
  files ≫= (λ file, addImage_call file None None).

(** The drag-and-drop overlay: the counter [dragCounterRef.current] and
    the cell [dragActive]. *)
Module DropZone.
Record t : Type := mk { dragCounter : Z; dragActive : bool }.
End DropZone.

Definition initial_zone : DropZone.t := DropZone.mk 0 false.

Definition handleDragEnter (z : DropZone.t) : DropZone.t :=
  DropZone.mk (DropZone.dragCounter z + 1) true.

Definition handleDragLeave (z : DropZone.t) : DropZone.t :=
  let counter := (DropZone.dragCounter z - 1)%Z in
  DropZone.mk counter
    (if decide (counter = 0%Z) then false else DropZone.dragActive z).

(** The notices that the handlers below can show. *)
Inductive Toast : Type :=
  | ToastImagesOnly
  | ToastPasted
  | ToastCopyingMany (count : nat)
  | ToastCopiedMany (count : nat).

(** What [handleDrop] does: the new overlay state, the notice it shows
    (if any) and the [addImage] calls it starts. *)
Module DropResult.
Record t : Type := mk {
  zone : DropZone.t;
  toast : option Toast;
  loads : list Load.t
}.
End DropResult.

Definition handleDrop (e : MouseEvent.t) (files : list File.t) (z : DropZone.t)
    : DropResult.t :=
  let imageFiles := filter (λ file, is_image_file file = true) files in
  if decide (length imageFiles = 0%nat) then
    DropResult.mk (DropZone.mk 0 false) (Some ToastImagesOnly) []
  else
    let dropX := MouseEvent.clientX e in
    let dropY := MouseEvent.clientY e in
    DropResult.mk (DropZone.mk 0 false) None
      (mjoin (imap (λ index file,
                addImage_call file
                  (Some (dropX + Qc_of_Z (Z.of_nat index * 20)))
                  (Some (dropY + Qc_of_Z (Z.of_nat index * 20))))
              imageFiles)).

(** The events of the overlay. *)
Inductive ZoneEvent : Type :=
  | DragEnter
  | DragLeave
  | Drop (e : MouseEvent.t) (files : list File.t).

Definition zone_step (z : DropZone.t) (ev : ZoneEvent) : DropZone.t :=
  match ev with
  | DragEnter => handleDragEnter z
  | DragLeave => handleDragLeave z
  | Drop e files => DropResult.zone (handleDrop e files z)
  end.

Definition zone_steps (z : DropZone.t) (evs : list ZoneEvent) : DropZone.t :=
  foldl zone_step z evs.

(** Every leave of the sequence answers an enter that is still open: it
    arrives while the counter is positive. *)
Fixpoint leaves_answer_enters (z : DropZone.t) (evs : list ZoneEvent) : Prop :=
  match evs with
  | [] => True
  | ev :: evs =>
      match ev with
      | DragLeave => (0 < DropZone.dragCounter z)%Z
      | _ => True
      end ∧ leaves_answer_enters (zone_step z ev) evs
  end.

(** *** Paste *)

Module ClipboardItem.
(** An entry of [clipboardData.items]: its type and what [getAsFile()]
    returns. *)
Record t : Type := mk { type : string; getAsFile : option File.t }.
End ClipboardItem.

(** [handlePaste]: [items] is [e.clipboardData?.items].  For every item
    whose type contains [image] and that yields a file, [addImage] is
    called with the last recorded pointer position and the notice is
    shown. *)
Definition handlePaste (items : option (list ClipboardItem.t)) (s : State)
    : list (list Load.t * Toast) :=
  match items with
  | None => []
  | Some items =>
      items ≫= (λ item,
        if decide (String.index 0 "image" (ClipboardItem.type item) ≠ None) then
          match ClipboardItem.getAsFile item with
          | Some file =>
              [ (addImage_call file (Some (Point.x (lastMousePos s)))
                                    (Some (Point.y (lastMousePos s))),
                 ToastPasted) ]
          | None => []
          end
        else [])
  end.

(** All [addImage] calls of a paste, in order. *)
Definition paste_loads (items : option (list ClipboardItem.t)) (s : State)
    : list Load.t :=
  handlePaste items s ≫= fst.

(** The pointer position that the last [MouseMove] of a sequence of
    events carries, or [p] when it has none. *)
Definition last_move_pointer (p : Point.t) (evs : list Event) : Point.t :=
  foldl (λ p ev, match ev with MouseMove e _ => pointer e | _ => p end) p evs.

(** *** Copy shortcut *)

(** What the [keydown] handler does for one key press: nothing, a run of
    [copyImageToClipboard] calls with the notices around it, or a run
    after which reading [.name] of the last copied image throws because
    nothing was copied. *)
Inductive CopyOutcome : Type :=
  | CopyNothing
  | CopyOne (image : ImageItem.t)
  | CopyMany (before : Toast) (copied : list ImageItem.t) (after : Toast)
  | CopyManyThrows (before : Toast).

Definition handleKeyDown (ctrlKey metaKey : bool) (key : string) (s : State)
    : CopyOutcome :=
  if (ctrlKey || metaKey) && bool_decide (key = "c") then
    if decide (size (selectedImages s) = 1%nat) then
      match head (elements (selectedImages s)) with
      | Some selectedImageId =>
          match List.find (λ img, bool_decide (ImageItem.id img = selectedImageId))
                  (images s) with
          | Some selectedImageData => CopyOne selectedImageData
          | None => CopyNothing
          end
      | None => CopyNothing
      end
    else if decide (1 < size (selectedImages s))%nat then
      let selectedImageIds := elements (selectedImages s) in
      let selectedImagesData :=
        filter (λ img, ImageItem.id img ∈ selectedImageIds) (images s) in
      match last selectedImagesData with
      | Some _ =>
          CopyMany (ToastCopyingMany (size (selectedImages s))) selectedImagesData
            (ToastCopiedMany (size (selectedImages s)))
      | None => CopyManyThrows (ToastCopyingMany (size (selectedImages s)))
      end
    else CopyNothing
  else CopyNothing.

(** The overlay is in step with the counter: the counter is not negative
    and the overlay is shown exactly while it is positive. *)
Definition zone_ok (z : DropZone.t) : Prop :=
  (0 ≤ DropZone.dragCounter z)%Z
  ∧ (DropZone.dragActive z = true ↔ (0 < DropZone.dragCounter z)%Z).

(** [Math.abs]. *)
Definition Math_abs (a : Qc) : Qc := if decide (0 ≤ a) then a else - a.

(** The style of the rubber band drawn while [isSelecting] is set:
    [left], [top], [width] and [height] of the [div]. *)
Definition band_style (b : Box.t) : Qc * Qc * Qc * Qc :=
  (Math_min (Box.startX b) (Box.endX b),
   Math_min (Box.startY b) (Box.endY b),
   Math_abs (Box.endX b - Box.startX b),
   Math_abs (Box.endY b - Box.startY b)).

(** The displayed size of an image is positive, at most 200 on each side,
    and in the proportion of the original size. *)
Definition well_sized (img : ImageItem.t) : Prop :=
  0 < ImageItem.width img ∧ ImageItem.width img ≤ Qc_of_Z 200
  ∧ 0 < ImageItem.height img ∧ ImageItem.height img ≤ Qc_of_Z 200
  ∧ ImageItem.width img * ImageItem.originalHeight img
    = ImageItem.height img * ImageItem.originalWidth img.

(** The rectangles of two images have a point in common (open
    rectangles: touching edges do not count). *)
Definition overlap (a b : ImageItem.t) : Prop :=
  ImageItem.x a < ImageItem.x b + ImageItem.width b
  ∧ ImageItem.x b < ImageItem.x a + ImageItem.width a
  ∧ ImageItem.y a < ImageItem.y b + ImageItem.height b
  ∧ ImageItem.y b < ImageItem.y a + ImageItem.height a.

(** * Properties *)

(** A decidable proposition about concrete data, settled by evaluating
    its decision procedure. *)
Ltac by_evaluation := apply (bool_decide_unpack _); by vm_compute.

(** ** Arithmetic of [Math.max], [Math.min] and clamping *)

Section MinMax.
Implicit Types a b c lo hi v : Qc.

Lemma Math_max_spec a b :
    (a ≤ b ∧ Math_max a b = b) ∨ (b < a ∧ Math_max a b = a).
  Proof.
    unfold Math_max. destruct (decide (a ≤ b)) as [H|H]; [by left|right].
    split; [by apply Qclt_nge|done].
  Qed.

Lemma Math_min_spec a b :
    (a ≤ b ∧ Math_min a b = a) ∨ (b < a ∧ Math_min a b = b).
  Proof.
    unfold Math_min. destruct (decide (a ≤ b)) as [H|H]; [by left|right].
    split; [by apply Qclt_nge|done].
  Qed.

Lemma Math_max_comm a b : Math_max a b = Math_max b a.
  Proof.
    destruct (Math_max_spec a b) as [[H ->]|[H ->]],
             (Math_max_spec b a) as [[H' ->]|[H' ->]]; try done.
    - by apply Qcle_antisym.
    - destruct (Qclt_not_le _ _ H). by apply Qclt_le_weak.
  Qed.

Lemma Math_min_comm a b : Math_min a b = Math_min b a.
  Proof.
    destruct (Math_min_spec a b) as [[H ->]|[H ->]],
             (Math_min_spec b a) as [[H' ->]|[H' ->]]; try done.
    - by apply Qcle_antisym.
    - destruct (Qclt_not_le _ _ H). by apply Qclt_le_weak.
  Qed.

Lemma Math_max_ge_l a b : a ≤ Math_max a b.
  Proof.
    destruct (Math_max_spec a b) as [[H ->]|[H ->]]; [done|apply Qcle_refl].
  Qed.

Lemma Math_max_ge_r a b : b ≤ Math_max a b.
  Proof. rewrite Math_max_comm. apply Math_max_ge_l. Qed.

Lemma Math_min_le_l a b : Math_min a b ≤ a.
  Proof.
    destruct (Math_min_spec a b) as [[H ->]|[H ->]];
      [apply Qcle_refl|by apply Qclt_le_weak].
  Qed.

Lemma Math_min_le_r a b : Math_min a b ≤ b.
  Proof. rewrite Math_min_comm. apply Math_min_le_l. Qed.

Lemma Math_max_lub a b c : a ≤ c → b ≤ c → Math_max a b ≤ c.
  Proof. intros. by destruct (Math_max_spec a b) as [[_ ->]|[_ ->]]. Qed.

  (** The nesting [Math.max(lo, Math.min(hi, v))] of the source is that
      clamping whenever the interval is not empty. *)
Lemma max_min_is_clamp lo hi v :
    lo ≤ hi → Math_max lo (Math_min hi v) = clamp lo hi v.
  Proof.
    intros Hlh. unfold clamp.
    destruct (Math_min_spec hi v) as [[H ->]|[H ->]].
    - destruct (decide (v < lo)) as [Hv|Hv].
      + destruct (Qclt_not_le _ _ Hv). by trans hi.
      + destruct (decide (hi < v)) as [Hv'|Hv'].
        * destruct (Math_max_spec lo hi) as [[_ ->]|[H' _]]; [done|].
          by destruct (Qclt_not_le _ _ H').
        * assert (v = hi) as -> by (apply Qcle_antisym; [by apply Qcle_ngt|done]).
          destruct (Math_max_spec lo hi) as [[_ ->]|[H' _]]; [done|].
          by destruct (Qclt_not_le _ _ H').
    - destruct (decide (v < lo)) as [Hv|Hv].
      + destruct (Math_max_spec lo v) as [[H' _]|[_ ->]]; [|done].
        by destruct (Qclt_not_le _ _ Hv).
      + rewrite decide_False by (by apply Qcle_ngt, Qclt_le_weak).
        destruct (Math_max_spec lo v) as [[_ ->]|[H' _]]; [done|].
        by destruct Hv.
  Qed.

Lemma max_min_in_range lo hi v :
    lo ≤ hi → lo ≤ Math_max lo (Math_min hi v) ≤ hi.
  Proof.
    intros Hlh. split; [apply Math_max_ge_l|].
    apply Math_max_lub; [done|apply Math_min_le_l].
  Qed.
End MinMax.

(** ** Zoom (C4) *)

Lemma zoomMin_le_zoomMax : zoomMin ≤ zoomMax.
Proof. by vm_compute. Qed.

Lemma zoomMin_pos : 0 < zoomMin.
Proof. by vm_compute. Qed.

Lemma handleWheel_zoomLevel deltaY s :
  zoomLevel (handleWheel deltaY s)
  = clamp zoomMin zoomMax
      (zoomLevel s + (if decide (0 < deltaY) then - zoomFactor else zoomFactor)).
Proof.
  unfold handleWheel. simpl. apply max_min_is_clamp, zoomMin_le_zoomMax.
Qed.

Lemma handleWheel_in_range deltaY s : zoom_in_range (handleWheel deltaY s).
Proof. apply max_min_in_range, zoomMin_le_zoomMax. Qed.

Lemma step_zoom_in_range s ev : zoom_in_range s → zoom_in_range (step s ev).
Proof.
  intros Hs. destruct ev; simpl.
  - unfold handleMouseMove. by repeat case_match.
  - unfold handleMouseUp. by repeat case_match.
  - apply handleWheel_in_range.
  - unfold handleImageMouseDown. by repeat case_match.
  - unfold handleCanvasMouseDown. by repeat case_match.
  - done.
  - done.
  - by vm_compute.
  - done.
  - done.
Qed.

Lemma steps_zoom_in_range s evs : zoom_in_range s → zoom_in_range (steps s evs).
Proof.
  revert s. induction evs as [|ev evs IH]; intros s Hs; [done|].
  simpl. by apply IH, step_zoom_in_range.
Qed.

Lemma reachable_zoom_in_range s : reachable s → zoom_in_range s.
Proof.
  induction 1 as [|s ev _ IH _]; [by vm_compute|by apply step_zoom_in_range].
Qed.

(** C4.  Start from any zoom level in [[0.1, 3]] and dispatch any sequence
    of wheel events.  Each event replaces the zoom level by the previous
    level minus the step 0.1 (when [deltaY > 0]) or plus the step 0.1
    (otherwise), clamped into [[0.1, 3]]; the level before and after every
    event lies in [[0.1, 3]], so it is never zero or negative. *)
Theorem wheel_zoom_clamped (s : State) (earlier : list Qc) (deltaY : Qc) :
  Q2Qc (1 # 10) ≤ zoomLevel s ≤ Qc_of_Z 3 →
  let before := steps s (Wheel <$> earlier) in
  let after := step before (Wheel deltaY) in
  (0 < deltaY →
     zoomLevel after
     = clamp (Q2Qc (1 # 10)) (Qc_of_Z 3) (zoomLevel before - Q2Qc (1 # 10)))
  ∧ (¬ 0 < deltaY →
     zoomLevel after
     = clamp (Q2Qc (1 # 10)) (Qc_of_Z 3) (zoomLevel before + Q2Qc (1 # 10)))
  ∧ Q2Qc (1 # 10) ≤ zoomLevel before ≤ Qc_of_Z 3
  ∧ Q2Qc (1 # 10) ≤ zoomLevel after ≤ Qc_of_Z 3
  ∧ 0 < zoomLevel after.
Proof.
  intros Hs before after.
  assert (zoom_in_range before) as Hb by by apply steps_zoom_in_range.
  assert (zoom_in_range after) as Ha by apply handleWheel_in_range.
  split; [|split; [|split; [exact Hb|split; [exact Ha|]]]].
  - intros Hd. unfold after.
    change (step before (Wheel deltaY)) with (handleWheel deltaY before).
    rewrite handleWheel_zoomLevel. by rewrite decide_True.
  - intros Hd. unfold after.
    change (step before (Wheel deltaY)) with (handleWheel deltaY before).
    rewrite handleWheel_zoomLevel. by rewrite decide_False.
  - eapply Qclt_le_trans; [apply zoomMin_pos|apply Ha].
Qed.

Lemma wheel_zoom_clamped_witness :
  Q2Qc (1 # 10) ≤ zoomLevel initial_state ≤ Qc_of_Z 3
  ∧ Q2Qc (1 # 10)
    ≤ zoomLevel (step (steps initial_state (Wheel <$> [Qc_of_Z (-120); Qc_of_Z (-120)]))
                   (Wheel (Qc_of_Z 120)))
    ≤ Qc_of_Z 3.
Proof.
  assert (Q2Qc (1 # 10) ≤ zoomLevel initial_state ≤ Qc_of_Z 3) as H
    by (split; by vm_compute).
  split; [exact H|].
  apply (wheel_zoom_clamped initial_state [Qc_of_Z (-120); Qc_of_Z (-120)]
           (Qc_of_Z 120) H).
Defined.

(** ** Coordinate round trip (C7) *)

(** Rendering the canvas-space image of a pointer coordinate puts it back
    under the pointer, for every non-zero zoom level. *)
Lemma toViewport_toCanvasSpace client rectStart rectSize zoom pan :
  zoom ≠ 0 →
  toViewport (toCanvasSpace client rectStart rectSize zoom pan)
    rectStart rectSize zoom pan = client.
Proof.
  intros Hz. unfold toViewport, toCanvasSpace. field.
  split; [discriminate|exact Hz].
Qed.

(** The other composition: a rendered canvas coordinate converts back to
    itself. *)
Lemma toCanvasSpace_toViewport canvas rectStart rectSize zoom pan :
  zoom ≠ 0 →
  toCanvasSpace (toViewport canvas rectStart rectSize zoom pan)
    rectStart rectSize zoom pan = canvas.
Proof.
  intros Hz. unfold toViewport, toCanvasSpace. field.
  split; [discriminate|exact Hz].
Qed.

(** C7.  For every pointer point [P], every bounding rectangle of the
    canvas, every zoom level among 0.1, 1 and 3 and every pan offset among
    (0,0) and (37,-12): converting [P] to canvas space with
    [(pointer - center) / zoom + center - pan] and mapping the result back
    with [(canvas - center + pan) * zoom + center] gives [P] again, on both
    axes, exactly (rational arithmetic). *)
Theorem coordinate_round_trip (P : Point.t) (rect : Rect.t) (zoom : Qc) (pan : Point.t) :
  zoom ∈ [Q2Qc (1 # 10); 1; Qc_of_Z 3] →
  pan ∈ [Point.mk 0 0; Point.mk (Qc_of_Z 37) (Qc_of_Z (-12))] →
  toViewport
    (toCanvasSpace (Point.x P) (Rect.left rect) (Rect.width rect) zoom (Point.x pan))
    (Rect.left rect) (Rect.width rect) zoom (Point.x pan) = Point.x P
  ∧ toViewport
      (toCanvasSpace (Point.y P) (Rect.top rect) (Rect.height rect) zoom (Point.y pan))
      (Rect.top rect) (Rect.height rect) zoom (Point.y pan) = Point.y P.
Proof.
  intros Hzoom _.
  assert (zoom ≠ 0) as Hz.
  { rewrite !elem_of_cons, elem_of_nil in Hzoom.
    destruct Hzoom as [->|[->|[->|[]]]]; by vm_compute. }
  split; by apply toViewport_toCanvasSpace.
Qed.

Lemma coordinate_round_trip_witness :
  let P := Point.mk (Qc_of_Z 640) (Qc_of_Z 75) in
  let rect := Rect.mk 0 0 (Qc_of_Z 1280) (Qc_of_Z 720) in
  let zoom := Q2Qc (1 # 10) in
  let pan := Point.mk (Qc_of_Z 37) (Qc_of_Z (-12)) in
  toViewport
    (toCanvasSpace (Point.x P) (Rect.left rect) (Rect.width rect) zoom (Point.x pan))
    (Rect.left rect) (Rect.width rect) zoom (Point.x pan) = Point.x P
  ∧ toViewport
      (toCanvasSpace (Point.y P) (Rect.top rect) (Rect.height rect) zoom (Point.y pan))
      (Rect.top rect) (Rect.height rect) zoom (Point.y pan) = Point.y P.
Proof.
  intros P rect zoom pan.
  apply (coordinate_round_trip P rect zoom pan).
  - apply list_elem_of_here.
  - apply list_elem_of_further, list_elem_of_here.
Defined.

(** The same round trip on the handler: the start corner that
    [handleCanvasMouseDown] stores on a primary-button press is the
    canvas-space point drawn under the pointer. *)
Lemma handleCanvasMouseDown_start_under_pointer e rect s :
  zoomLevel s ≠ 0 →
  MouseEvent.button e = 0%Z →
  let s' := handleCanvasMouseDown e true rect s in
  toViewport (Box.startX (selectionBox s')) (Rect.left rect) (Rect.width rect)
    (zoomLevel s') (Point.x (panOffset s')) = MouseEvent.clientX e
  ∧ toViewport (Box.startY (selectionBox s')) (Rect.top rect) (Rect.height rect)
      (zoomLevel s') (Point.y (panOffset s')) = MouseEvent.clientY e.
Proof.
  intros Hz Hb. unfold handleCanvasMouseDown. rewrite Hb. simpl.
  split; by apply toViewport_toCanvasSpace.
Qed.

(** ** Removal (C9) *)

Lemma filter_all {A} (P : A → Prop) `{∀ x, Decision (P x)} (l : list A) :
  (∀ x, x ∈ l → P x) → filter P l = l.
Proof.
  induction l as [|a l IH]; intros Hall; [done|].
  rewrite filter_cons_True by apply Hall, list_elem_of_here.
  f_equal. apply IH. intros x Hx. by apply Hall, list_elem_of_further.
Qed.

Lemma filter_idemp {A} (P : A → Prop) `{∀ x, Decision (P x)} (l : list A) :
  filter P (filter P l) = filter P l.
Proof. apply filter_all. intros x Hx. by apply list_elem_of_filter in Hx as [? _]. Qed.

Lemma setImages_id s : setImages (λ prev, prev) s = s.
Proof. by destruct s. Qed.

Lemma ids_removeImage id s :
  ids (removeImage id s) = filter (λ i, i ≠ id) (ids s).
Proof.
  unfold ids, removeImage. simpl.
  induction (images s) as [|img imgs IH]; [done|].
  rewrite fmap_cons, !filter_cons. destruct (decide (ImageItem.id img ≠ id)).
  - by rewrite fmap_cons, IH.
  - done.
Qed.

(** C9.  Removing an id that no image carries changes nothing (the whole
    component state is returned as it was, and there is no failure case:
    [removeImage] is a total function); removing the same id twice gives
    the same state as removing it once. *)
Theorem removeImage_absent_idempotent (s : State) (id : Qc) :
  (id ∉ ids s → removeImage id s = s)
  ∧ removeImage id (removeImage id s) = removeImage id s.
Proof.
  split.
  - intros Hid. unfold removeImage.
    rewrite <-(setImages_id s) at 2. unfold setImages. f_equal.
    apply filter_all. intros img Himg <-.
    apply Hid. unfold ids. by apply list_elem_of_fmap_2.
  - unfold removeImage, setImages. simpl. f_equal. apply filter_idemp.
Qed.

Lemma removeImage_absent_idempotent_witness :
  (Qc_of_Z 7 ∉ ids five_images)
  ∧ removeImage (Qc_of_Z 7) five_images = five_images.
Proof.
  assert (Qc_of_Z 7 ∉ ids five_images) as H.
  { intros H. apply list_elem_of_In in H. vm_compute in H.
    repeat destruct H as [H|H]; try discriminate H. exact H. }
  split; [exact H|].
  by apply (removeImage_absent_idempotent five_images (Qc_of_Z 7)).
Defined.

(** ** Grid arrangement (C8) *)

Lemma images_resetImagePositions s :
  images (resetImagePositions s)
  = imap (λ index img,
      ImageItem.with_xy img
        (Qc_of_Z (50 + Z.of_nat (index mod 4) * 220))
        (Qc_of_Z (200 + Z.of_nat (index / 4) * 220))) (images s).
Proof.
  unfold resetImagePositions. simpl. apply imap_ext. intros index img _.
  unfold modulo, floor_div. by rewrite !Z2Qc_inj_add, !Z2Qc_inj_mul.
Qed.

(** C8.  [resetImagePositions] keeps the images in their array order and
    moves the image at index [i] to
    [(50 + (i mod 4) * 220, 200 + (i / 4) * 220)], leaving its id, size and
    stacking order alone; it empties the selection; the resulting positions
    depend on the number of images only; and five images end up at
    (50,200), (270,200), (490,200), (710,200), (50,420). *)
Theorem resetImagePositions_grid (s : State) :
  let s' := resetImagePositions s in
  length (images s') = length (images s)
  ∧ (∀ index img, images s !! index = Some img →
       images s' !! index
       = Some (ImageItem.with_xy img
                 (Qc_of_Z (50 + Z.of_nat (index mod 4) * 220))
                 (Qc_of_Z (200 + Z.of_nat (index / 4) * 220))))
  ∧ selectedImages s' = ∅
  ∧ (∀ t, length (images t) = length (images s) →
       positions (resetImagePositions t) = positions s')
  ∧ (length (images s) = 5%nat →
       positions s'
       = [ (Qc_of_Z 50, Qc_of_Z 200); (Qc_of_Z 270, Qc_of_Z 200);
           (Qc_of_Z 490, Qc_of_Z 200); (Qc_of_Z 710, Qc_of_Z 200);
           (Qc_of_Z 50, Qc_of_Z 420) ]).
Proof.
  intros s'. unfold s'. split_and!.
  - by rewrite images_resetImagePositions, length_imap.
  - intros index img Hlk.
    by rewrite images_resetImagePositions, list_lookup_imap, Hlk.
  - done.
  - intros t Hlen. unfold positions. rewrite !images_resetImagePositions.
    apply list_eq. intros i.
    rewrite !list_lookup_fmap, !list_lookup_imap.
    destruct (images t !! i) as [a|] eqn:Ha, (images s !! i) as [b|] eqn:Hb;
      try done.
    + apply lookup_lt_Some in Ha. apply lookup_ge_None in Hb. lia.
    + apply lookup_lt_Some in Hb. apply lookup_ge_None in Ha. lia.
  - intros Hlen. unfold positions. rewrite images_resetImagePositions.
    destruct (images s) as [|a [|b [|c [|d [|e [|f l]]]]]]; try done.
Qed.

Lemma resetImagePositions_grid_witness :
  length (images five_images) = 5%nat
  ∧ positions (resetImagePositions five_images)
    = [ (Qc_of_Z 50, Qc_of_Z 200); (Qc_of_Z 270, Qc_of_Z 200);
        (Qc_of_Z 490, Qc_of_Z 200); (Qc_of_Z 710, Qc_of_Z 200);
        (Qc_of_Z 50, Qc_of_Z 420) ].
Proof.
  split; [reflexivity|].
  by apply (resetImagePositions_grid five_images).
Defined.

(** ** Single drag (C5) *)

(** The state is in single-drag mode with anchor [anchor]: the test
    [isDraggingImage && selectedImage] of [handleMouseMove] succeeds. *)
Lemma handleMouseMove_single e canvasElement s anchor :
  isDraggingImage s = true →
  selectedImage s = Some anchor →
  anchor ≠ 0 →
  handleMouseMove e canvasElement s
  = run (setLastMousePos (Point.mk (MouseEvent.clientX e) (MouseEvent.clientY e)) s)
      [ setImages (fmap (λ img,
          if decide (ImageItem.id img = anchor)
          then ImageItem.with_xy img
                 (ImageItem.x img
                  + (MouseEvent.clientX e - Point.x (dragOffset s)) / zoomLevel s)
                 (ImageItem.y img
                  + (MouseEvent.clientY e - Point.y (dragOffset s)) / zoomLevel s)
          else img));
        setDragOffset (Point.mk (MouseEvent.clientX e) (MouseEvent.clientY e)) ].
Proof.
  intros Hd Hs Ha. unfold handleMouseMove. rewrite Hd, Hs. simpl.
  rewrite bool_decide_eq_true_2 by done. simpl. unfold setImages. simpl.
  do 2 f_equal. apply list_fmap_ext. intros _ img _.
  destruct (decide (Some (ImageItem.id img) = Some anchor)) as [Heq|Hne],
           (decide (ImageItem.id img = anchor)) as [Heq'|Hne']; try done.
  - by injection Heq.
  - by destruct Hne; f_equal.
Qed.

(** C5.  In single-drag mode (the flag [isDraggingImage] is set and
    [selectedImage] holds the non-zero id [anchor]) with zoom level
    [z ≠ 0], a pointer move to [(clientX, clientY)] adds
    [((clientX - dragOffset.x) / z, (clientY - dragOffset.y) / z)] to the
    position of the image whose id is [anchor] and leaves that image's id,
    size and stacking order alone; every image with another id is left as
    it was; the array keeps its length and order.  [dragOffset] becomes the
    pointer position of this event and the mode is kept, so the next move
    is measured from this event and not from the press point. *)
Theorem single_drag_move (s : State) (e : MouseEvent.t)
    (canvasElement : option Rect.t) (anchor : Qc) :
  isDraggingImage s = true →
  selectedImage s = Some anchor →
  anchor ≠ 0 →
  zoomLevel s ≠ 0 →
  let deltaX := (MouseEvent.clientX e - Point.x (dragOffset s)) / zoomLevel s in
  let deltaY := (MouseEvent.clientY e - Point.y (dragOffset s)) / zoomLevel s in
  let s' := handleMouseMove e canvasElement s in
  length (images s') = length (images s)
  ∧ (∀ index img, images s !! index = Some img →
       ∃ img', images s' !! index = Some img'
         ∧ (ImageItem.id img = anchor →
              ImageItem.x img' = ImageItem.x img + deltaX
              ∧ ImageItem.y img' = ImageItem.y img + deltaY
              ∧ ImageItem.id img' = ImageItem.id img
              ∧ ImageItem.width img' = ImageItem.width img
              ∧ ImageItem.height img' = ImageItem.height img
              ∧ ImageItem.zIndex img' = ImageItem.zIndex img)
         ∧ (ImageItem.id img ≠ anchor → img' = img))
  ∧ dragOffset s' = Point.mk (MouseEvent.clientX e) (MouseEvent.clientY e)
  ∧ isDraggingImage s' = true
  ∧ selectedImage s' = Some anchor
  ∧ zoomLevel s' = zoomLevel s.
Proof.
  intros Hd Hs Ha _ deltaX deltaY s'. unfold s'.
  rewrite (handleMouseMove_single e canvasElement s anchor Hd Hs Ha). simpl.
  split_and!; try done.
  - by rewrite length_fmap.
  - intros index img Hlk. rewrite list_lookup_fmap, Hlk. simpl.
    eexists. split; [done|].
    destruct (decide (ImageItem.id img = anchor)); by split.
Qed.

(** Two consecutive moves of a single drag, possibly with a wheel event in
    between: the displacement of the anchor is the sum of the two
    increments, each divided by the zoom level current at its move. *)
Lemma single_drag_two_moves s e1 e2 c1 c2 deltaY anchor img :
  isDraggingImage s = true →
  selectedImage s = Some anchor →
  anchor ≠ 0 →
  images s = [img] →
  ImageItem.id img = anchor →
  let s1 := handleMouseMove e1 c1 s in
  let s2 := handleWheel deltaY s1 in
  let s3 := handleMouseMove e2 c2 s2 in
  ImageItem.x <$> images s3
  = [ ImageItem.x img
      + (MouseEvent.clientX e1 - Point.x (dragOffset s)) / zoomLevel s
      + (MouseEvent.clientX e2 - MouseEvent.clientX e1) / zoomLevel s2 ].
Proof.
  intros Hd Hs Ha Himg Hid s1 s2 s3. unfold s3, s2, s1.
  rewrite (handleMouseMove_single e2 c2 _ anchor);
    rewrite ?(handleMouseMove_single e1 c1 s anchor Hd Hs Ha); try done.
  simpl. rewrite Himg. simpl.
  destruct (decide (ImageItem.id img = anchor)); [simpl|done].
  by rewrite decide_True.
Qed.

Lemma single_drag_move_witness :
  let s := steps initial_state
             [ sample_load 1000 (Q2Qc (1 # 4));
               ImageMouseDown (sample_press 10 10 false) (Q2Qc (4001 # 4)) 2000;
               Wheel (Qc_of_Z (-120)) ] in
  let e := sample_press 34 (-2) false in
  (isDraggingImage s = true
   ∧ selectedImage s = Some (Q2Qc (4001 # 4))
   ∧ Q2Qc (4001 # 4) ≠ 0
   ∧ zoomLevel s ≠ 0)
  ∧ length (images (handleMouseMove e None s)) = length (images s)
  ∧ dragOffset (handleMouseMove e None s) = Point.mk (Qc_of_Z 34) (Qc_of_Z (-2)).
Proof.
  intros s e.
  assert (isDraggingImage s = true) as Hd by reflexivity.
  assert (selectedImage s = Some (Q2Qc (4001 # 4))) as Hs by reflexivity.
  assert (Q2Qc (4001 # 4) ≠ 0) as Ha by discriminate.
  assert (zoomLevel s ≠ 0) as Hz by discriminate.
  split; [done|].
  destruct (single_drag_move s e None (Q2Qc (4001 # 4)) Hd Hs Ha Hz)
    as (Hlen & _ & Hoff & _).
  split; [exact Hlen|exact Hoff].
Defined.

(** ** Rubber-band release (C3) *)

Lemma between_min_max a b c :
  Math_min a b ≤ c ∧ c ≤ Math_max a b ↔ between a b c.
Proof.
  unfold between.
  destruct (Math_min_spec a b) as [[Hab ->]|[Hba ->]].
  - destruct (Math_max_spec a b) as [[_ ->]|[Hba ->]].
    + split; [by left|]. intros [H|[H1 H2]]; [done|].
      split; [by trans b | by trans a].
    + by destruct (Qclt_not_le _ _ Hba).
  - destruct (Math_max_spec a b) as [[Hab ->]|[_ ->]].
    + by destruct (Qclt_not_le _ _ Hba).
    + split; [by right|]. intros [[H1 H2]|H]; [|done].
      apply Qclt_le_weak in Hba. split; [by trans a | by trans b].
Qed.

Lemma between_comm a b c : between a b c ↔ between b a c.
Proof. unfold between. tauto. Qed.

Lemma center_in_box_inside b img :
  center_in_box (Math_min (Box.startX b) (Box.endX b))
                (Math_max (Box.startX b) (Box.endX b))
                (Math_min (Box.startY b) (Box.endY b))
                (Math_max (Box.startY b) (Box.endY b)) img
  ↔ center_inside b img.
Proof.
  unfold center_in_box, center_inside. simpl.
  rewrite <-!between_min_max. tauto.
Qed.

Lemma center_inside_swap b img :
  center_inside (swap_corners b) img ↔ center_inside b img.
Proof.
  unfold center_inside, swap_corners. simpl.
  by rewrite (between_comm (Box.endX b)), (between_comm (Box.endY b)).
Qed.

(** What the [forEach] loop accumulates. *)
Lemma elem_of_foldl_add (P : ImageItem.t → Prop) `{∀ img, Decision (P img)}
    (imgs : list ImageItem.t) (acc : gset Qc) (id : Qc) :
  id ∈ foldl (λ selectedIds img,
               if decide (P img) then {[ ImageItem.id img ]} ∪ selectedIds
               else selectedIds) acc imgs
  ↔ id ∈ acc ∨ ∃ img, img ∈ imgs ∧ ImageItem.id img = id ∧ P img.
Proof.
  revert acc. induction imgs as [|img imgs IH]; intros acc; simpl.
  - split; [by left|]. intros [?|(img & Himg & _)]; [done|].
    by apply elem_of_nil in Himg.
  - rewrite IH. split.
    + intros [Hacc|(img' & Himg' & Hid & HP)].
      * destruct (decide (P img)) as [HP|HP]; [|by left].
        apply elem_of_union in Hacc as [->%elem_of_singleton|Hacc]; [|by left].
        right. exists img. split; [apply list_elem_of_here|done].
      * right. exists img'. split; [by apply list_elem_of_further|done].
    + intros [Hacc|(img' & Himg' & Hid & HP)].
      * left. destruct (decide (P img)); [|done].
        apply elem_of_union. by right.
      * apply elem_of_cons in Himg' as [->|Himg'].
        -- left. rewrite decide_True by done.
           apply elem_of_union. left. by apply elem_of_singleton.
        -- right. by exists img'.
Qed.

Lemma elem_of_box_selection b imgs id :
  id ∈ box_selection b imgs
  ↔ ∃ img, img ∈ imgs ∧ ImageItem.id img = id ∧ center_inside b img.
Proof.
  unfold box_selection. rewrite elem_of_foldl_add. split.
  - intros [H|(img & ? & ? & Hc)]; [set_solver|].
    exists img. by rewrite <-center_in_box_inside.
  - intros (img & ? & ? & Hc). right. exists img.
    by rewrite center_in_box_inside.
Qed.

Lemma handleMouseUp_selecting s :
  isSelecting s = true →
  selectedImages (handleMouseUp s) = box_selection (selectionBox s) (images s)
  ∧ isSelecting (handleMouseUp s) = false.
Proof. intros Hsel. unfold handleMouseUp. by rewrite Hsel. Qed.

(** C3.  When the pointer is released while a rubber band is in progress,
    the new selection is exactly the set of ids of the images whose centre
    [(x + width / 2, y + height / 2)] lies in the closed box spanned by the
    start corner and the current corner, whatever was selected before; the
    band drawn from the other corner selects the same set; a band that
    holds no centre leaves the selection empty; and the band is over. *)
Theorem rubber_band_release (s : State) :
  isSelecting s = true →
  let s' := handleMouseUp s in
  (∀ id, id ∈ selectedImages s'
         ↔ ∃ img, img ∈ images s ∧ ImageItem.id img = id
                  ∧ center_inside (selectionBox s) img)
  ∧ selectedImages (handleMouseUp (setSelectionBox swap_corners s))
    = selectedImages s'
  ∧ ((∀ img, img ∈ images s → ¬ center_inside (selectionBox s) img) →
     selectedImages s' = ∅)
  ∧ isSelecting s' = false.
Proof.
  intros Hsel s'. unfold s'.
  destruct (handleMouseUp_selecting s Hsel) as [-> ->].
  destruct (handleMouseUp_selecting (setSelectionBox swap_corners s) Hsel)
    as [-> _].
  split_and!; try done.
  - intros id. apply elem_of_box_selection.
  - apply set_eq. intros id. simpl. rewrite !elem_of_box_selection.
    by setoid_rewrite center_inside_swap.
  - intros Hnone. apply set_eq. intros id. rewrite elem_of_box_selection.
    split; [|set_solver]. intros (img & Himg & _ & Hc). by destruct (Hnone img).
Qed.

Lemma rubber_band_release_witness :
  isSelecting (banding 0 0 60 60 {[ Qc_of_Z 3 ]}) = true
  ∧ selectedImages (handleMouseUp (setSelectionBox swap_corners
                                     (banding 0 0 60 60 {[ Qc_of_Z 3 ]})))
    = selectedImages (handleMouseUp (banding 0 0 60 60 {[ Qc_of_Z 3 ]})).
Proof.
  assert (isSelecting (banding 0 0 60 60 {[ Qc_of_Z 3 ]}) = true) as H
    by reflexivity.
  split; [exact H|].
  destruct (rubber_band_release (banding 0 0 60 60 {[ Qc_of_Z 3 ]}) H)
    as (_ & Hswap & _).
  exact Hswap.
Defined.

(** The band from (0,0) to (60,60) over centres (10,10), (50,50) and
    (200,200) selects the first two images, drawn in either direction, and
    drops the third image that was selected before. *)
Example rubber_band_two_of_three :
  selectedImages (handleMouseUp (banding 0 0 60 60 {[ Qc_of_Z 3 ]}))
    = {[ Qc_of_Z 1; Qc_of_Z 2 ]}
  ∧ selectedImages (handleMouseUp (banding 60 60 0 0 {[ Qc_of_Z 3 ]}))
    = {[ Qc_of_Z 1; Qc_of_Z 2 ]}.
Proof. split; by vm_compute. Qed.

(** ** Press on the empty canvas (C10) *)

Lemma step_gesture_event s ev :
  gesture_event ev →
  selectedImages (step s ev) = selectedImages s
  ∧ isSelecting (step s ev) = isSelecting s.
Proof.
  destruct ev; simpl; try done; intros _.
  unfold handleMouseMove. by repeat case_match.
Qed.

Lemma steps_gesture_events s evs :
  Forall gesture_event evs →
  selectedImages (steps s evs) = selectedImages s
  ∧ isSelecting (steps s evs) = isSelecting s.
Proof.
  intros Hall. revert s.
  induction Hall as [|ev evs Hev _ IH]; intros s; [done|].
  simpl. destruct (IH (step s ev)) as [-> ->].
  by apply step_gesture_event.
Qed.

(** C10.  A primary-button press on the empty canvas empties the selection
    at once, turns rubber-band mode on and stores the canvas-space pointer
    position as both corners of the band.  Through every sequence of
    pointer moves, wheel notches and image-load completions that follows,
    the selection stays empty and the band stays in progress; the release
    then sets the selection to the ids of the images whose centre lies in
    the band. *)
Theorem canvas_press_clears_selection (s : State) (e : MouseEvent.t)
    (rect : Rect.t) (during : list Event) :
  MouseEvent.button e = 0%Z →
  Forall gesture_event during →
  let pressed := handleCanvasMouseDown e true rect s in
  let held := steps pressed during in
  let x := toCanvasSpace (MouseEvent.clientX e) (Rect.left rect) (Rect.width rect)
             (zoomLevel s) (Point.x (panOffset s)) in
  let y := toCanvasSpace (MouseEvent.clientY e) (Rect.top rect) (Rect.height rect)
             (zoomLevel s) (Point.y (panOffset s)) in
  selectedImages pressed = ∅
  ∧ isSelecting pressed = true
  ∧ selectionBox pressed = Box.mk x y x y
  ∧ selectedImages held = ∅
  ∧ isSelecting held = true
  ∧ (∀ id, id ∈ selectedImages (handleMouseUp held)
           ↔ ∃ img, img ∈ images held ∧ ImageItem.id img = id
                    ∧ center_inside (selectionBox held) img).
Proof.
  intros Hb Hduring pressed held x y.
  assert (selectedImages pressed = ∅ ∧ isSelecting pressed = true
          ∧ selectionBox pressed = Box.mk x y x y) as (Hsel & Hband & Hbox).
  { unfold pressed, handleCanvasMouseDown. by rewrite Hb. }
  destruct (steps_gesture_events pressed during Hduring) as [Hsel' Hband'].
  fold held in Hsel', Hband'. rewrite Hsel in Hsel'. rewrite Hband in Hband'.
  split_and!; try done.
  intros id. destruct (handleMouseUp_selecting held Hband') as [-> _].
  apply elem_of_box_selection.
Qed.

Lemma canvas_press_clears_selection_witness :
  let s := steps five_images
             [ ImageMouseDown (sample_press 10 10 false) (Q2Qc (4001 # 4)) 2000;
               MouseUp ] in
  let e := sample_press 600 400 false in
  let during := [ MouseMove (sample_press 700 500 false) (Some sample_rect);
                  Wheel (Qc_of_Z 120);
                  MouseMove (sample_press 710 520 false) (Some sample_rect) ] in
  selectedImages s = {[ Q2Qc (4001 # 4) ]}
  ∧ MouseEvent.button e = 0%Z
  ∧ Forall gesture_event during
  ∧ selectedImages (steps (handleCanvasMouseDown e true sample_rect s) during) = ∅.
Proof.
  intros s e during.
  assert (MouseEvent.button e = 0%Z) as Hb by reflexivity.
  assert (Forall gesture_event during) as Hd by (repeat constructor).
  split; [reflexivity|]. split; [exact Hb|]. split; [exact Hd|].
  destruct (canvas_press_clears_selection s e sample_rect during Hb Hd)
    as (_ & _ & _ & Hheld & _).
  exact Hheld.
Defined.

(** ** Selection and removal (C1) *)

Lemma reachable_steps s evs :
  reachable s → trace_enabled s evs → reachable (steps s evs).
Proof.
  revert s. induction evs as [|ev evs IH]; intros s Hs Hevs; [done|].
  destruct Hevs as [Hev Hevs]. simpl. apply IH; [|done].
  by apply reachable_step.
Qed.

Lemma trace_enabled_check s evs :
  bool_decide (trace_enabled s evs) = true → trace_enabled s evs.
Proof. apply bool_decide_eq_true_1. Qed.

(** [removeImage] never touches the selection. *)
Lemma selectedImages_removeImage id s :
  selectedImages (removeImage id s) = selectedImages s.
Proof. done. Qed.

Lemma removeImage_not_in_ids id s : id ∉ ids (removeImage id s).
Proof.
  rewrite ids_removeImage. intros H. by apply list_elem_of_filter in H as [? _].
Qed.

(** Deleting a selected image with its delete button breaks the
    selection invariant, in every state. *)
Lemma removeImage_selected_dangling id s :
  id ∈ selectedImages s → ¬ selection_valid (removeImage id s).
Proof.
  intros Hsel Hvalid. apply (removeImage_not_in_ids id s), Hvalid.
  by rewrite selectedImages_removeImage.
Qed.

(** The bulk delete does prune: it removes exactly the selected images and
    leaves the selection empty. *)
Lemma deleteSelectedImages_prunes s :
  let s' := deleteSelectedImages s in
  selectedImages s' = ∅
  ∧ images s' = filter (λ img, ImageItem.id img ∉ selectedImages s) (images s)
  ∧ selection_valid s'.
Proof. simpl. split_and!; try done. Qed.

(** C1.  The selection invariant fails on the per-image delete.  After
    loading one picture, pressing on it, releasing and clicking its delete
    button (a sequence of events the page can dispatch from its initial
    state), the store is empty while the selection still holds the id of
    the deleted picture: [removeImage] filters [images] and leaves
    [selectedImages] as it was. *)
Theorem removeImage_leaves_dangling_selection :
  let s := steps initial_state select_then_remove in
  reachable s
  ∧ images s = []
  ∧ Q2Qc (4001 # 4) ∈ selectedImages s
  ∧ ¬ selection_valid s.
Proof.
  intros s.
  assert (Q2Qc (4001 # 4) ∈ selectedImages s) as Hin
    by by_evaluation.
  assert (images s = []) as Himgs by by vm_compute.
  split; [|split; [exact Himgs|split; [exact Hin|]]].
  - apply reachable_steps; [apply reachable_initial|].
    apply trace_enabled_check. by vm_compute.
  - intros Hvalid. apply Hvalid in Hin. unfold ids in Hin.
    rewrite Himgs in Hin. by apply elem_of_nil in Hin.
Qed.

(** Every other event keeps the selection invariant, so the per-image
    delete is the only way to a dangling selected id. *)
Lemma ids_fmap_same_id (f : ImageItem.t → ImageItem.t) (imgs : list ImageItem.t) :
  (∀ img, ImageItem.id (f img) = ImageItem.id img) →
  ImageItem.id <$> (f <$> imgs) = ImageItem.id <$> imgs.
Proof.
  intros Hf. rewrite <-list_fmap_compose. apply list_fmap_ext.
  intros _ img _. apply Hf.
Qed.

Lemma ids_handleMouseMove e c s : ids (handleMouseMove e c s) = ids s.
Proof.
  unfold handleMouseMove, ids.
  repeat case_match; simpl; try done;
    apply ids_fmap_same_id; intros img; by destruct (decide _).
Qed.

Lemma selectedImages_handleMouseMove e c s :
  selectedImages (handleMouseMove e c s) = selectedImages s.
Proof. unfold handleMouseMove. by repeat case_match. Qed.

Lemma ids_handleImageMouseDown e imageId now s :
  ids (handleImageMouseDown e imageId now s) = ids s.
Proof.
  unfold handleImageMouseDown, ids.
  repeat case_match; simpl; try done;
    apply ids_fmap_same_id; intros img; by destruct (decide _).
Qed.

Lemma step_selection_valid s ev :
  selection_valid s →
  enabled s ev →
  (∀ id, ev ≠ ClickRemove id) →
  selection_valid (step s ev).
Proof.
  intros Hvalid Hen Hnot. destruct ev; simpl in *.
  - intros id. rewrite ids_handleMouseMove, selectedImages_handleMouseMove.
    apply Hvalid.
  - unfold handleMouseUp. destruct (isSelecting s); [|done].
    intros id Hid. simpl in Hid.
    apply elem_of_box_selection in Hid as (img & Himg & <- & _).
    by apply list_elem_of_fmap_2.
  - done.
  - intros id. rewrite ids_handleImageMouseDown.
    unfold handleImageMouseDown. repeat case_match; simpl.
    + intros [Hid _]%elem_of_difference. by apply Hvalid.
    + intros [->%elem_of_singleton|Hid]%elem_of_union; [done|by apply Hvalid].
    + apply Hvalid.
    + by intros ->%elem_of_singleton.
  - unfold handleCanvasMouseDown. by repeat case_match.
  - by destruct (Hnot id).
  - intros id Hid. simpl in Hid. by apply elem_of_empty in Hid.
  - done.
  - intros id Hid. simpl in Hid. by apply elem_of_empty in Hid.
  - intros id Hid. unfold ids. simpl. rewrite fmap_app.
    apply elem_of_app. left. by apply Hvalid.
Qed.

(** ** Double precision *)

Lemma round_half_even_le (q : Q) (m : Z) :
  (q <= inject_Z m)%Q → (round_half_even q ≤ m)%Z.
Proof.
  intros Hq. unfold round_half_even.
  pose proof (Qfloor_le q) as Hf.
  assert (Qfloor q ≤ m)%Z as Hfm.
  { rewrite Zle_Qle. eapply Qle_trans; [exact Hf|exact Hq]. }
  destruct (Qcompare_spec (q - inject_Z (Qfloor q)) (1 # 2)) as [He|Hl|Hg];
    [|done|].
  - assert (Qfloor q + 1 ≤ m)%Z.
    { apply Z.le_succ_l. rewrite Zlt_Qlt. lra. }
    destruct (Z.even _); lia.
  - apply Z.le_succ_l. rewrite Zlt_Qlt. lra.
Qed.

Lemma round_half_even_ge (q : Q) (m : Z) :
  (inject_Z m <= q)%Q → (m ≤ round_half_even q)%Z.
Proof.
  intros Hq. unfold round_half_even.
  assert (m ≤ Qfloor q)%Z as Hfm.
  { rewrite <-(Qfloor_Z m). by apply Qfloor_resp_le. }
  repeat case_match; lia.
Qed.

(** The nearest integer is at most 1/2 away. *)
Lemma round_half_even_nearest (q : Q) :
  (- (1 # 2) <= inject_Z (round_half_even q) - q)%Q
  ∧ (inject_Z (round_half_even q) - q <= 1 # 2)%Q.
Proof.
  unfold round_half_even.
  pose proof (Qfloor_le q) as Hlo. pose proof (Qlt_floor q) as Hhi.
  rewrite inject_Z_plus in Hhi. change (inject_Z 1) with 1%Q in Hhi.
  destruct (Qcompare_spec (q - inject_Z (Qfloor q)) (1 # 2)) as [He|Hl|Hg].
  - destruct (Z.even _); rewrite ?inject_Z_plus; change (inject_Z 1) with 1%Q; lra.
  - lra.
  - rewrite inject_Z_plus. change (inject_Z 1) with 1%Q. lra.
Qed.

Lemma Qpower_2_Z (k : Z) : (0 ≤ k)%Z → (2 ^ k == inject_Z (2 ^ k))%Q.
Proof. intros Hk. by rewrite Zpower_Qpower. Qed.

(** [binade] computes the exponent of the power of two at or below a
    positive rational. *)
Lemma binade_spec (x : Q) :
  (0 < x)%Q → (2 ^ binade x <= x)%Q ∧ (x < 2 ^ (binade x + 1))%Q.
Proof.
  intros Hpos. unfold binade. destruct (Qle_bool 1 x) eqn:Hle.
  - apply Qle_bool_iff in Hle.
    assert (1 ≤ Qfloor x)%Z as H1.
    { rewrite <-(Qfloor_Z 1). by apply Qfloor_resp_le. }
    destruct (Z.log2_spec (Qfloor x)) as [Hlo Hhi]; [lia|].
    pose proof (Z.log2_nonneg (Qfloor x)) as Hk.
    rewrite !Qpower_2_Z by lia. split.
    + eapply Qle_trans; [|apply Qfloor_le]. by rewrite <-Zle_Qle.
    + eapply Qlt_le_trans; [apply Qlt_floor|]. rewrite <-Zle_Qle.
      replace (Z.log2 (Qfloor x) + 1)%Z with (Z.succ (Z.log2 (Qfloor x))) by lia.
      lia.
  - assert (x < 1)%Q as Hlt.
    { apply Qnot_le_lt. intros H. apply Qle_bool_iff in H. congruence. }
    set (c := Qceiling (/ x)).
    assert (0 < / x)%Q as Hinv by (by apply Qinv_lt_0_compat).
    assert (x * / x == 1)%Q as Hxx by (apply Qmult_inv_r; lra).
    assert (1 < / x)%Q as Hbig by nra.
    assert (1 < c)%Z as Hc.
    { rewrite Zlt_Qlt. eapply Qlt_le_trans; [exact Hbig|apply Qle_ceiling]. }
    destruct (Z.log2_up_spec c Hc) as [Hlo Hhi].
    pose proof (Z.log2_up_nonneg c) as Hj.
    set (j := Z.log2_up c) in *.
    assert (0 < j)%Z as Hjpos.
    { destruct (decide (j = 0%Z)) as [Hz|]; [|lia].
      rewrite Hz in Hhi. simpl in Hhi. lia. }
    assert (/ x <= inject_Z (2 ^ j))%Q as Hup.
    { eapply Qle_trans; [apply Qle_ceiling|]. by rewrite <-Zle_Qle. }
    assert (inject_Z (2 ^ Z.pred j) < / x)%Q as Hdown.
    { eapply Qle_lt_trans; [|apply Qceiling_lt]. fold c.
      rewrite <-Zle_Qle. lia. }
    rewrite <-(Qpower_2_Z j) in Hup by lia.
    rewrite <-(Qpower_2_Z (Z.pred j)) in Hdown by lia.
    assert (0 < 2 ^ j)%Q as Hpj by (by apply Qpower_0_lt).
    assert (0 < 2 ^ Z.pred j)%Q as Hpj' by (by apply Qpower_0_lt).
    rewrite Qpower_opp.
    replace (- j + 1)%Z with (- Z.pred j)%Z by lia. rewrite Qpower_opp.
    assert (2 ^ j * / 2 ^ j == 1)%Q as Hjj by (apply Qmult_inv_r; lra).
    assert (2 ^ Z.pred j * / 2 ^ Z.pred j == 1)%Q as Hjj'
      by (apply Qmult_inv_r; lra).
    assert (0 < / 2 ^ j)%Q by (by apply Qinv_lt_0_compat).
    assert (0 < / 2 ^ Z.pred j)%Q by (by apply Qinv_lt_0_compat).
    split.
    + apply Qnot_lt_le. intros Hcontra. nra.
    + apply Qnot_le_lt. intros Hcontra. nra.
Qed.

(** [round_to_double x] lies on the grid of the binade of [x], and it is
    a grid point nearest to [x]: the error is at most half the spacing. *)
Lemma round_to_double_nearest (x : Q) :
  let e := Z.max (binade x - 52) (-1074) in
  (∃ m : Z, round_to_double x == inject_Z m * 2 ^ e)%Q
  ∧ (- ((1 # 2) * 2 ^ e) <= round_to_double x - x)%Q
  ∧ (round_to_double x - x <= (1 # 2) * 2 ^ e)%Q.
Proof.
  intros e. unfold round_to_double. fold e.
  assert (0 < 2 ^ e)%Q as Hpow by (by apply Qpower_0_lt).
  split; [by eexists|].
  destruct (round_half_even_nearest (x / 2 ^ e)) as [Hlo Hhi].
  set (r := inject_Z (round_half_even (x / 2 ^ e))) in *.
  assert (x == x / 2 ^ e * 2 ^ e)%Q as Hx by (field; lra).
  set (q := (x / 2 ^ e)%Q) in *. clearbody q r.
  set (p := (2 ^ e)%Q) in *. clearbody p.
  assert (0 <= (r - q + (1 # 2)) * p)%Q as H1 by (apply Qmult_le_0_compat; lra).
  assert (0 <= ((1 # 2) - (r - q)) * p)%Q as H2 by (apply Qmult_le_0_compat; lra).
  rewrite Hx. split; nra.
Qed.

Lemma binade_below_53 (x : Q) :
  (0 < x)%Q → (x < inject_Z (2 ^ 53))%Q → (binade x ≤ 52)%Z.
Proof.
  intros Hpos Hx. unfold binade. destruct (Qle_bool 1 x) eqn:Hle.
  - apply Qle_bool_iff in Hle.
    assert (1 ≤ Qfloor x)%Z as H1.
    { rewrite <-(Qfloor_Z 1). by apply Qfloor_resp_le. }
    assert (Qfloor x < 2 ^ 53)%Z as H2.
    { rewrite Zlt_Qlt. eapply Qle_lt_trans; [apply Qfloor_le|exact Hx]. }
    apply Z.log2_lt_pow2 in H2; lia.
  - pose proof (Z.log2_up_nonneg (Qceiling (/ x))). lia.
Qed.

Lemma Qpower_2_neg (e : Z) :
  (e ≤ 0)%Z → (2 ^ e * inject_Z (2 ^ (- e)) == 1)%Q.
Proof.
  intros He. rewrite Zpower_Qpower by lia. change (inject_Z 2) with 2%Q.
  rewrite <-Qpower_plus by discriminate.
  replace (e + - e)%Z with 0%Z by lia. reflexivity.
Qed.

(** Below [2^53] every whole number is a double, so rounding does not
    cross a whole number. *)
Lemma round_to_double_between (x : Q) (a b : Z) :
  (0 < x)%Q → (x < inject_Z (2 ^ 53))%Q →
  (inject_Z a <= x)%Q → (x <= inject_Z b)%Q →
  (inject_Z a <= round_to_double x)%Q ∧ (round_to_double x <= inject_Z b)%Q.
Proof.
  intros Hpos Hx Ha Hb. unfold round_to_double.
  pose proof (binade_below_53 x Hpos Hx) as Hk.
  set (e := Z.max (binade x - 52) (-1074)).
  assert (e ≤ 0)%Z as He by lia.
  pose proof (Qpower_2_neg e He) as Hinv.
  assert (0 < 2 ^ e)%Q as Hpow by (by apply Qpower_0_lt).
  set (p := (2 ^ (- e))%Z) in *.
  assert (x / 2 ^ e == x * inject_Z p)%Q as Hdiv.
  { unfold Qdiv. apply Qmult_comp; [reflexivity|].
    rewrite <-(Qmult_1_l (/ 2 ^ e)), <-Hinv. field. lra. }
  assert (∀ m : Z, inject_Z m == inject_Z (m * p) * 2 ^ e)%Q as Hgrid.
  { intros m.
    rewrite inject_Z_mult, <-Qmult_assoc, (Qmult_comm (inject_Z p)), Hinv. ring. }
  assert (0 < inject_Z p)%Q as Hp.
  { apply Qnot_le_lt. intros Hneg. nra. }
  split.
  - rewrite (Hgrid a). apply Qmult_le_compat_r; [|lra].
    rewrite <-Zle_Qle. apply round_half_even_ge.
    rewrite Hdiv, inject_Z_mult. apply Qmult_le_compat_r; lra.
  - rewrite (Hgrid b). apply Qmult_le_compat_r; [|lra].
    rewrite <-Zle_Qle. apply round_half_even_le.
    rewrite Hdiv, inject_Z_mult. apply Qmult_le_compat_r; lra.
Qed.

Lemma to_double_between (x : Qc) (a b : Z) :
  0 ≤ x → x < Qc_of_Z (2 ^ 53) →
  Qc_of_Z a ≤ x → x ≤ Qc_of_Z b →
  Qc_of_Z a ≤ to_double x ∧ to_double x ≤ Qc_of_Z b.
Proof.
  intros H0 Hx Ha Hb. unfold to_double.
  destruct (x ?= 0) eqn:Hc.
  - apply Qeq_alt, Qc_is_canon in Hc. by subst x.
  - apply Qlt_alt in Hc. by apply Qclt_not_le in Hc.
  - destruct (round_to_double_between x a b) as [Hl Hu];
      [by apply Qgt_alt in Hc|exact Hx|exact Ha|exact Hb|].
    split; unfold Qcle; cbn [this Q2Qc Qc_of_Z]; by rewrite Qred_correct.
Qed.

(** The whole numbers up to [2^53] are doubles. *)
Lemma to_double_whole (n : Z) :
  (0 ≤ n < 2 ^ 53)%Z → to_double (Qc_of_Z n) = Qc_of_Z n.
Proof.
  intros [Hn0 Hn]. destruct (to_double_between (Qc_of_Z n) n n) as [Hl Hu].
  - apply (proj1 (Z2Qc_inj_le 0 n)). exact Hn0.
  - apply (proj1 (Z2Qc_inj_lt n (2 ^ 53))). exact Hn.
  - reflexivity.
  - reflexivity.
  - by apply Qcle_antisym.
Qed.

(** Known values: the doubles nearest to 0.1 and 0.3, the sum
    [0.1 + 0.2] (which is the double above 0.3), and a tie that goes to
    the even neighbour. *)
Example to_double_known_values :
  this (to_double (Q2Qc (1 # 10))) = (3602879701896397 # 36028797018963968)%Q
  ∧ this (to_double (Q2Qc (3 # 10))) = (5404319552844595 # 18014398509481984)%Q
  ∧ this (to_double (to_double (Q2Qc (1 # 10)) + to_double (Q2Qc (2 # 10))))
    = (1351079888211149 # 4503599627370496)%Q
  ∧ this (to_double (Qc_of_Z 9007199254740992 + 1)) = 9007199254740992%Q
  ∧ this (to_double (Qc_of_Z 9007199254740992 + Qc_of_Z 3)) = 9007199254740996%Q.
Proof. split_and!; by vm_compute. Qed.

(** ** Group bring-to-front (C2) *)

Lemma handleImageMouseDown_group e imageId now s :
  MouseEvent.ctrlKey e = false →
  MouseEvent.metaKey e = false →
  imageId ∈ selectedImages s →
  (1 < size (selectedImages s))%nat →
  handleImageMouseDown e imageId now s
  = run s
      [ setIsDraggingGroup true;
        setDragOffset (Point.mk (MouseEvent.clientX e) (MouseEvent.clientY e));
        setImages (fmap (λ img,
          if decide (ImageItem.id img ∈ selectedImages s)
          then ImageItem.with_zIndex img (to_double (Qc_of_Z now + ImageItem.id img))
          else img)) ].
Proof.
  intros Hc Hm Hin Hsize. unfold handleImageMouseDown. rewrite Hc, Hm. simpl.
  by rewrite !bool_decide_eq_true_2.
Qed.

(** What the group press does to the stacking orders: a selected image
    gets the double [now + id], an unselected image is left as it is. *)
Lemma group_press_stacking (s : State) (e : MouseEvent.t) (imageId : Qc)
    (now : Z) :
  MouseEvent.ctrlKey e = false →
  MouseEvent.metaKey e = false →
  imageId ∈ selectedImages s →
  (1 < size (selectedImages s))%nat →
  let s' := handleImageMouseDown e imageId now s in
  selectedImages s' = selectedImages s
  ∧ ∀ i img, images s !! i = Some img →
      ∃ img', images s' !! i = Some img'
        ∧ (ImageItem.id img ∈ selectedImages s →
             img' = ImageItem.with_zIndex img
                      (to_double (Qc_of_Z now + ImageItem.id img)))
        ∧ (ImageItem.id img ∉ selectedImages s → img' = img).
Proof.
  intros Hc Hm Hin Hsize s'. unfold s'.
  rewrite (handleImageMouseDown_group e imageId now s Hc Hm Hin Hsize).
  split; [reflexivity|]. intros i img Hlk. simpl.
  rewrite list_lookup_fmap, Hlk. simpl.
  eexists. split; [reflexivity|].
  by destruct (decide (ImageItem.id img ∈ selectedImages s)).
Qed.

(** Reading the id and the stacking order of the image at an array index
    off an evaluation of the state. *)
Lemma image_at (imgs : list ImageItem.t) (i : nat) (idq zq : Q) :
  (λ img, (this (ImageItem.id img), this (ImageItem.zIndex img))) <$> imgs !! i
  = Some (idq, zq) →
  ∃ img, imgs !! i = Some img
         ∧ ImageItem.id img = Q2Qc idq
         ∧ this (ImageItem.zIndex img) = zq.
Proof.
  destruct (imgs !! i) as [img|]; [|done]. simpl. intros [= Hid Hz].
  exists img. split_and!; try done.
  apply Qc_is_canon. simpl. rewrite Hid. symmetry. apply Qred_correct.
Qed.

(** C2.  The group bring-to-front does not bring the group to the front,
    against the comment on the update in the source (selected images to the
    very front).  In a state the page reaches from its initial state with
    ordinary timings, A and B are selected and a plain press on A at clock
    reading 80000 starts a group drag.  Before it the stacking orders of A,
    B, C, D are 75000, 2000, 130000.25, 131000.25 (C and D were
    group-dragged at 70000).  The update gives A the order
    [80000 + 1000.25] and B the order [80000 + 2000.25]: both selected
    images stay below both unselected ones, and B, which was below A, is
    now above it. *)
Theorem group_drag_stays_behind :
  let s := steps initial_state group_drag_setup in
  let e := sample_press 10 10 false in
  let press := ImageMouseDown e (Q2Qc (4001 # 4)) 80000 in
  let s' := step s press in
  reachable s
  ∧ enabled s press
  ∧ (MouseEvent.ctrlKey e = false ∧ MouseEvent.metaKey e = false
     ∧ Q2Qc (4001 # 4) ∈ selectedImages s
     ∧ (1 < size (selectedImages s))%nat)
  ∧ isDraggingGroup s' = true
  ∧ selectedImages s = {[ Q2Qc (4001 # 4); Q2Qc (8001 # 4) ]}
  ∧ stacking s = [75000; 2000; 520001 # 4; 524001 # 4]%Q
  ∧ stacking s' = [324001 # 4; 328001 # 4; 520001 # 4; 524001 # 4]%Q
  ∧ ¬ selected_above_rest (selectedImages s) (images s')
  ∧ ¬ relative_order_kept (selectedImages s) (images s) (images s').
Proof.
  intros s e press s'.
  assert (Q2Qc (4001 # 4) ∈ selectedImages s) as HA
    by by_evaluation.
  assert (Q2Qc (8001 # 4) ∈ selectedImages s) as HB
    by by_evaluation.
  assert (Q2Qc (240001 # 4) ∉ selectedImages s) as HC
    by by_evaluation.
  destruct (image_at (images s) 0 (4001 # 4) 75000) as (a & Ha & Hida & Hza);
    [by vm_compute|].
  destruct (image_at (images s) 1 (8001 # 4) 2000) as (b & Hb & Hidb & Hzb);
    [by vm_compute|].
  destruct (image_at (images s') 0 (4001 # 4) (324001 # 4)) as (a' & Ha' & Hida' & Hza');
    [by vm_compute|].
  destruct (image_at (images s') 1 (8001 # 4) (328001 # 4)) as (b' & Hb' & Hidb' & Hzb');
    [by vm_compute|].
  destruct (image_at (images s') 2 (240001 # 4) (520001 # 4)) as (c' & Hc' & Hidc' & Hzc');
    [by vm_compute|].
  split; [|split; [|split; [|split; [|split; [|split; [|split; [|split]]]]]]].
  - apply reachable_steps; [apply reachable_initial|].
    apply trace_enabled_check. by vm_compute.
  - by_evaluation.
  - split; [reflexivity|]. split; [reflexivity|]. split; [exact HA|].
    by_evaluation.
  - by vm_compute.
  - by vm_compute.
  - by vm_compute.
  - by vm_compute.
  - intros Habove.
    assert (ImageItem.zIndex c' < ImageItem.zIndex a') as Hlt.
    { apply (Habove 0%nat 2%nat a' c' Ha' Hc').
      - rewrite Hida'. exact HA.
      - rewrite Hidc'. exact HC. }
    clear Habove. unfold Qclt in Hlt. rewrite Hza', Hzc' in Hlt.
    discriminate Hlt.
  - intros Hkept.
    assert (ImageItem.zIndex b' < ImageItem.zIndex a') as Hlt.
    { apply (Hkept 0%nat 1%nat a b a' b' Ha Hb Ha' Hb').
      - rewrite Hida. exact HA.
      - rewrite Hidb. exact HB.
      - unfold Qclt. rewrite Hza, Hzb. reflexivity. }
    clear Hkept. unfold Qclt in Hlt. rewrite Hza', Hzb' in Hlt.
    discriminate Hlt.
Qed.

(** At the magnitude of the clock the sum [now + id] has one bit less
    for the fraction than the id: two selected images with different ids
    can get the same stacking order. *)
Example group_drag_equal_stacking :
  let s := steps initial_state group_tie_setup in
  let e := sample_press 10 10 false in
  let press := ImageMouseDown e (Qc_of_Z sample_clock + Q2Qc (1 # 4))
                 (sample_clock + 5000) in
  let s' := step s press in
  reachable s
  ∧ enabled s press
  ∧ NoDup (ids s)
  ∧ (1 < size (selectedImages s))%nat
  ∧ isDraggingGroup s' = true
  ∧ stacking s' = [14097094260001 # 4; 14097094260001 # 4]%Q.
Proof.
  intros s e press s'.
  split; [|split; [|split; [|split; [|split]]]].
  - apply reachable_steps; [apply reachable_initial|].
    apply trace_enabled_check. by vm_compute.
  - by_evaluation.
  - by_evaluation.
  - by_evaluation.
  - by vm_compute.
  - by vm_compute.
Qed.

(** ** Image identities (C6) *)

Lemma newImage_id w h dropX dropY env :
  ImageItem.id (newImage w h dropX dropY env)
  = to_double (Qc_of_Z (AddEnv.now_id env) + AddEnv.random_id env).
Proof. unfold newImage. by repeat case_match. Qed.

(** C6, as stated, fails.  Two loads that complete at the same clock
    reading 1000 with random fractions 3/4 and 1/4 give the earlier image
    the id 1000.75 and the later one the id 1000.25; with the same random
    fraction 1/2 both images get the id 1000.5. *)
Lemma image_id_counterexample :
  let s := steps initial_state (same_millisecond (Q2Qc (3 # 4)) (Q2Qc (1 # 4))) in
  let t := steps initial_state (same_millisecond (Q2Qc (1 # 2)) (Q2Qc (1 # 2))) in
  reachable s
  ∧ ids s = [Q2Qc (4003 # 4); Q2Qc (4001 # 4)]
  ∧ ¬ ids_strictly_increasing s
  ∧ reachable t
  ∧ ids t = [Q2Qc (2001 # 2); Q2Qc (2001 # 2)]
  ∧ ¬ NoDup (ids t).
Proof.
  intros s t.
  assert (ids s = [Q2Qc (4003 # 4); Q2Qc (4001 # 4)]) as Hs.
  { vm_compute. repeat (f_equal; try by apply Qc_is_canon). }
  assert (ids t = [Q2Qc (2001 # 2); Q2Qc (2001 # 2)]) as Ht.
  { vm_compute. repeat (f_equal; try by apply Qc_is_canon). }
  split; [|split; [exact Hs|split; [|split; [|split; [exact Ht|]]]]].
  - apply reachable_steps; [apply reachable_initial|].
    apply trace_enabled_check. by vm_compute.
  - intros Hinc.
    assert (Q2Qc (4003 # 4) < Q2Qc (4001 # 4)) as Hlt.
    { apply (Hinc 0%nat 1%nat); [lia|by rewrite Hs..]. }
    clear Hinc. discriminate Hlt.
  - apply reachable_steps; [apply reachable_initial|].
    apply trace_enabled_check. by vm_compute.
  - rewrite Ht. intros Hnd. apply NoDup_cons in Hnd as [Hnotin _].
    apply Hnotin, list_elem_of_here.
Qed.

(** The sum is rounded to a double, and at the magnitude of the clock
    doubles are [2^-12] apart: a load at reading [t] with random fraction
    0.99995 and a load at reading [t + 1] with random fraction 0.00005
    both give the id [t + 1]. *)
Example image_ids_collide_in_consecutive_milliseconds :
  let s := steps initial_state consecutive_milliseconds in
  reachable s
  ∧ ids s = [Qc_of_Z (sample_clock + 1); Qc_of_Z (sample_clock + 1)]
  ∧ ¬ NoDup (ids s).
Proof.
  intros s.
  assert (ids s = [Qc_of_Z (sample_clock + 1); Qc_of_Z (sample_clock + 1)]) as Hs.
  { vm_compute. repeat (f_equal; try by apply Qc_is_canon). }
  split; [|split; [exact Hs|]].
  - apply reachable_steps; [apply reachable_initial|].
    apply trace_enabled_check. by vm_compute.
  - rewrite Hs. intros Hnd. apply NoDup_cons in Hnd as [Hnotin _].
    apply Hnotin, list_elem_of_here.
Qed.

(** The id of a new image lies between the clock reading and the next
    one, both ends included. *)
Lemma newImage_id_bounds w h dropX dropY env :
  is_clock (AddEnv.now_id env) →
  is_random (AddEnv.random_id env) →
  Qc_of_Z (AddEnv.now_id env) ≤ ImageItem.id (newImage w h dropX dropY env)
  ∧ ImageItem.id (newImage w h dropX dropY env) ≤ Qc_of_Z (AddEnv.now_id env + 1).
Proof.
  intros [Hn0 Hn] [Hr0 Hr1]. rewrite newImage_id.
  set (now := AddEnv.now_id env) in *. set (r := AddEnv.random_id env) in *.
  assert (Qc_of_Z now ≤ Qc_of_Z now + r) as Hlo.
  { rewrite <-(Qcplus_0_r (Qc_of_Z now)) at 1. by apply Qcplus_le_mono_l. }
  assert (Qc_of_Z now + r < Qc_of_Z (now + 1)) as Hhi.
  { rewrite Z2Qc_inj_add, Z2Qc_inj_1. by apply Qcplus_lt_mono_l. }
  apply to_double_between.
  - eapply Qcle_trans; [|exact Hlo]. apply (proj1 (Z2Qc_inj_le 0 now)). exact Hn0.
  - eapply Qclt_le_trans; [exact Hhi|].
    apply (proj1 (Z2Qc_inj_le (now + 1) (2 ^ 53))). lia.
  - exact Hlo.
  - by apply Qclt_le_weak.
Qed.

(** C6, amended.  A completed load appends one image whose id is the clock
    reading (in milliseconds) plus the random fraction, rounded to a
    double; it is not a counter value.  The id lies between the clock
    reading and the next one, both included.  An image created at a later
    clock reading has an id that is at least as great, and a strictly
    greater one when the two readings are at least two milliseconds
    apart, whatever the two random fractions are. *)
Theorem image_id_from_clock (s : State) (imgWidth imgHeight : Qc)
    (dropX dropY : option Qc) (env : AddEnv.t) :
  is_clock (AddEnv.now_id env) →
  is_random (AddEnv.random_id env) →
  let img := newImage imgWidth imgHeight dropX dropY env in
  images (addImage imgWidth imgHeight dropX dropY env s) = images s ++ [img]
  ∧ ImageItem.id img
    = to_double (Qc_of_Z (AddEnv.now_id env) + AddEnv.random_id env)
  ∧ Qc_of_Z (AddEnv.now_id env) ≤ ImageItem.id img
  ∧ ImageItem.id img ≤ Qc_of_Z (AddEnv.now_id env + 1)
  ∧ (∀ w' h' dropX' dropY' env',
       is_clock (AddEnv.now_id env') →
       is_random (AddEnv.random_id env') →
       let img' := newImage w' h' dropX' dropY' env' in
       ((AddEnv.now_id env < AddEnv.now_id env')%Z →
          ImageItem.id img ≤ ImageItem.id img')
       ∧ ((AddEnv.now_id env + 1 < AddEnv.now_id env')%Z →
          ImageItem.id img < ImageItem.id img')).
Proof.
  intros Hclock Hrandom img.
  destruct (newImage_id_bounds imgWidth imgHeight dropX dropY env Hclock Hrandom)
    as [Hlo Hhi].
  split; [reflexivity|]. split; [apply newImage_id|].
  split; [exact Hlo|]. split; [exact Hhi|].
  intros w' h' dropX' dropY' env' Hclock' Hrandom' img'.
  destruct (newImage_id_bounds w' h' dropX' dropY' env' Hclock' Hrandom')
    as [Hlo' _].
  split; intros Hlater.
  - eapply Qcle_trans; [exact Hhi|]. eapply Qcle_trans; [|exact Hlo'].
    apply (proj1 (Z2Qc_inj_le _ _)). lia.
  - eapply Qcle_lt_trans; [exact Hhi|]. eapply Qclt_le_trans; [|exact Hlo'].
    apply (proj1 (Z2Qc_inj_lt _ _)). lia.
Qed.

Lemma image_id_from_clock_witness :
  let env := sample_env 1000 (Q2Qc (3 # 4)) in
  let env' := sample_env 1002 (Q2Qc (1 # 4)) in
  (is_clock (AddEnv.now_id env) ∧ is_random (AddEnv.random_id env))
  ∧ ImageItem.id (newImage (Qc_of_Z 400) (Qc_of_Z 300) None None env)
    < ImageItem.id (newImage (Qc_of_Z 400) (Qc_of_Z 300) None None env').
Proof.
  intros env env'.
  assert (is_clock (AddEnv.now_id env)) as Hclock by (by vm_compute).
  assert (is_random (AddEnv.random_id env)) as Hrandom by (by vm_compute).
  assert (is_clock (AddEnv.now_id env')) as Hclock' by (by vm_compute).
  assert (is_random (AddEnv.random_id env')) as Hrandom' by (by vm_compute).
  split; [exact (conj Hclock Hrandom)|].
  destruct (image_id_from_clock initial_state (Qc_of_Z 400) (Qc_of_Z 300)
              None None env Hclock Hrandom) as (_ & _ & _ & _ & Hlater).
  destruct (Hlater (Qc_of_Z 400) (Qc_of_Z 300) None None env' Hclock' Hrandom')
    as [_ Hstrict].
  apply Hstrict. reflexivity.
Defined.

(** * Further properties of the handlers *)

(** ** Group drag *)

Lemma handleMouseMove_group e canvasElement s :
  isDraggingImage s = false →
  isDraggingGroup s = true →
  selectedImages s ≠ ∅ →
  handleMouseMove e canvasElement s
  = run (setLastMousePos (pointer e) s)
      [ setImages (fmap (λ img,
          if decide (ImageItem.id img ∈ selectedImages s)
          then ImageItem.with_xy img
                 (ImageItem.x img
                  + (MouseEvent.clientX e - Point.x (dragOffset s)) / zoomLevel s)
                 (ImageItem.y img
                  + (MouseEvent.clientY e - Point.y (dragOffset s)) / zoomLevel s)
          else img));
        setDragOffset (pointer e) ].
Proof.
  intros Hd Hg Hne. unfold handleMouseMove. rewrite Hd, Hg. simpl.
  rewrite bool_decide_eq_true_2; [done|].
  destruct (decide (size (selectedImages s) = 0%nat)) as [H0|H0]; [|lia].
  by apply size_empty_inv, leibniz_equiv in H0.
Qed.

(** In group-drag mode a pointer move translates every selected image by
    the same vector [((clientX - dragOffset.x) / zoom,
    (clientY - dragOffset.y) / zoom)], so the offsets between selected
    images are kept, and it returns every unselected image unchanged; ids,
    sizes and stacking orders are untouched, the selection and the mode are
    kept, and [dragOffset] becomes the pointer position. *)
Theorem group_drag_move (s : State) (e : MouseEvent.t)
    (canvasElement : option Rect.t) :
  isDraggingImage s = false →
  isDraggingGroup s = true →
  selectedImages s ≠ ∅ →
  zoomLevel s ≠ 0 →
  let deltaX := (MouseEvent.clientX e - Point.x (dragOffset s)) / zoomLevel s in
  let deltaY := (MouseEvent.clientY e - Point.y (dragOffset s)) / zoomLevel s in
  let s' := handleMouseMove e canvasElement s in
  (∀ i img, images s !! i = Some img →
     images s' !! i
     = Some (if decide (ImageItem.id img ∈ selectedImages s)
             then ImageItem.with_xy img (ImageItem.x img + deltaX)
                                        (ImageItem.y img + deltaY)
             else img))
  ∧ (∀ i j a b a' b',
       images s !! i = Some a → images s !! j = Some b →
       images s' !! i = Some a' → images s' !! j = Some b' →
       ImageItem.id a ∈ selectedImages s → ImageItem.id b ∈ selectedImages s →
       ImageItem.x b' - ImageItem.x a' = ImageItem.x b - ImageItem.x a
       ∧ ImageItem.y b' - ImageItem.y a' = ImageItem.y b - ImageItem.y a)
  ∧ length (images s') = length (images s)
  ∧ selectedImages s' = selectedImages s
  ∧ isDraggingGroup s' = true
  ∧ dragOffset s' = pointer e.
Proof.
  intros Hd Hg Hne _ deltaX deltaY s'. unfold s'.
  rewrite (handleMouseMove_group e canvasElement s Hd Hg Hne). simpl.
  split; [|split; [|split; [by rewrite length_fmap|done]]].
  - intros i img Hlk. by rewrite list_lookup_fmap, Hlk.
  - intros i j a b a' b' Ha Hb Ha' Hb' Hsa Hsb.
    rewrite list_lookup_fmap, Ha in Ha'. rewrite list_lookup_fmap, Hb in Hb'.
    simpl in Ha', Hb'. rewrite decide_True in Ha' by done.
    rewrite decide_True in Hb' by done.
    injection Ha' as <-. injection Hb' as <-. simpl. split; ring.
Qed.

Lemma group_drag_move_witness :
  let s := run (banding 0 0 60 60 {[ Qc_of_Z 1; Qc_of_Z 3 ]})
             [ setIsSelecting false; setIsDraggingGroup true ] in
  let e := sample_press 30 40 false in
  (isDraggingImage s = false ∧ isDraggingGroup s = true
   ∧ selectedImages s ≠ ∅ ∧ zoomLevel s ≠ 0)
  ∧ dragOffset (handleMouseMove e None s) = pointer e.
Proof.
  intros s e.
  assert (isDraggingImage s = false) as Hd by reflexivity.
  assert (isDraggingGroup s = true) as Hg by reflexivity.
  assert (selectedImages s ≠ ∅) as Hne.
  { intros Heq. assert (Qc_of_Z 1 ∈ selectedImages s) as Hin by by_evaluation.
    rewrite Heq in Hin. by apply elem_of_empty in Hin. }
  assert (zoomLevel s ≠ 0) as Hz by discriminate.
  split; [exact (conj Hd (conj Hg (conj Hne Hz)))|].
  destruct (group_drag_move s e None Hd Hg Hne Hz) as (_ & _ & _ & _ & _ & Hoff).
  exact Hoff.
Defined.

(** ** A drag follows the pointer *)


Lemma toViewport_pan_shift canvas d rectStart rectSize zoom pan :
  toViewport canvas rectStart rectSize zoom (pan + d)
  - toViewport canvas rectStart rectSize zoom pan = d * zoom.
Proof. unfold toViewport. ring. Qed.






(** ** Panning *)

Lemma handleMouseMove_pan e canvasElement s :
  isDraggingImage s = false →
  isDraggingGroup s = false →
  isPanning s = true →
  handleMouseMove e canvasElement s
  = run (setLastMousePos (pointer e) s)
      [ setPanOffset (λ prev,
          Point.mk (Point.x prev + (MouseEvent.clientX e - Point.x (panStartPos s)))
                   (Point.y prev + (MouseEvent.clientY e - Point.y (panStartPos s))));
        setPanStartPos (pointer e) ].
Proof. intros Hd Hg Hp. unfold handleMouseMove. by rewrite Hd, Hg, Hp. Qed.

Lemma pan_moves s moves :
  isDraggingImage s = false →
  isDraggingGroup s = false →
  isPanning s = true →
  let s' := steps s (move_events moves) in
  let p := last_pointer (panStartPos s) moves in
  panOffset s'
  = Point.mk (Point.x (panOffset s) + (Point.x p - Point.x (panStartPos s)))
             (Point.y (panOffset s) + (Point.y p - Point.y (panStartPos s)))
  ∧ images s' = images s
  ∧ zoomLevel s' = zoomLevel s
  ∧ selectedImages s' = selectedImages s
  ∧ isPanning s' = true.
Proof.
  revert s. induction moves as [|[e c] moves IH]; intros s Hd Hg Hp; simpl.
  - split; [|done]. destruct (panOffset s) as [px py]. simpl. f_equal; ring.
  - pose proof (handleMouseMove_pan e c s Hd Hg Hp) as Hstep.
    set (s1 := handleMouseMove e c s) in *.
    assert (isDraggingImage s1 = false) as Hd1 by (by rewrite Hstep).
    assert (isDraggingGroup s1 = false) as Hg1 by (by rewrite Hstep).
    assert (isPanning s1 = true) as Hp1 by (by rewrite Hstep).
    destruct (IH s1 Hd1 Hg1 Hp1) as (Hpan & Himgs & Hzoom & Hsel & Hmode).
    fold (steps s1 (move_events moves)).
    rewrite Hpan, Himgs, Hzoom, Hsel, Hmode, Hstep. simpl.
    split; [|done]. f_equal; ring.
Qed.

(** A middle-button press on the empty canvas followed by any run of
    pointer moves (no drag being in progress): the pan offset ends at its
    old value plus the raw displacement of the pointer from the press
    point, whatever path the pointer took and whatever the zoom level;
    images, zoom level and selection are untouched.  On the screen every
    canvas point has therefore moved by the pointer's displacement times
    the zoom level. *)
Theorem pan_follows_pointer (s : State) (e : MouseEvent.t) (rect : Rect.t)
    (moves : list (MouseEvent.t * option Rect.t)) :
  isDraggingImage s = false →
  isDraggingGroup s = false →
  MouseEvent.button e = 1%Z →
  let s' := steps (handleCanvasMouseDown e true rect s) (move_events moves) in
  let p := last_pointer (pointer e) moves in
  let dX := Point.x p - MouseEvent.clientX e in
  let dY := Point.y p - MouseEvent.clientY e in
  panOffset s' = Point.mk (Point.x (panOffset s) + dX) (Point.y (panOffset s) + dY)
  ∧ images s' = images s
  ∧ zoomLevel s' = zoomLevel s
  ∧ selectedImages s' = selectedImages s
  ∧ (∀ canvas view,
       toViewport canvas (Rect.left view) (Rect.width view)
         (zoomLevel s') (Point.x (panOffset s'))
       - toViewport canvas (Rect.left view) (Rect.width view)
           (zoomLevel s) (Point.x (panOffset s)) = dX * zoomLevel s
       ∧ toViewport canvas (Rect.top view) (Rect.height view)
           (zoomLevel s') (Point.y (panOffset s'))
         - toViewport canvas (Rect.top view) (Rect.height view)
             (zoomLevel s) (Point.y (panOffset s)) = dY * zoomLevel s).
Proof.
  intros Hd Hg Hb s' p dX dY.
  assert (handleCanvasMouseDown e true rect s
          = run s [ setIsPanning true; setPanStartPos (pointer e) ]) as Hpress.
  { unfold handleCanvasMouseDown. by rewrite Hb. }
  set (s1 := handleCanvasMouseDown e true rect s) in *.
  assert (isDraggingImage s1 = false) as Hd1 by (by rewrite Hpress).
  assert (isDraggingGroup s1 = false) as Hg1 by (by rewrite Hpress).
  assert (isPanning s1 = true) as Hp1 by (by rewrite Hpress).
  destruct (pan_moves s1 moves Hd1 Hg1 Hp1) as (Hpan & Himgs & Hzoom & Hsel & _).
  fold s' in Hpan, Himgs, Hzoom, Hsel.
  rewrite Hpress in Hpan, Himgs, Hzoom, Hsel. simpl in Hpan, Himgs, Hzoom, Hsel.
  fold p in Hpan.
  split; [exact Hpan|]. split; [exact Himgs|]. split; [exact Hzoom|].
  split; [exact Hsel|].
  intros canvas view. rewrite Hzoom, Hpan. simpl.
  split; apply toViewport_pan_shift.
Qed.

Lemma pan_follows_pointer_witness :
  let e := MouseEvent.mk (Qc_of_Z 100) (Qc_of_Z 100) 1 false false in
  let moves := [ (sample_press 130 90 false, None); (sample_press 160 20 false, None) ] in
  (isDraggingImage five_images = false ∧ isDraggingGroup five_images = false
   ∧ MouseEvent.button e = 1%Z)
  ∧ images (steps (handleCanvasMouseDown e true sample_rect five_images)
              (move_events moves)) = images five_images.
Proof.
  intros e moves.
  assert (isDraggingImage five_images = false) as Hd by reflexivity.
  assert (isDraggingGroup five_images = false) as Hg by reflexivity.
  assert (MouseEvent.button e = 1%Z) as Hb by reflexivity.
  split; [exact (conj Hd (conj Hg Hb))|].
  destruct (pan_follows_pointer five_images e sample_rect moves Hd Hg Hb)
    as (_ & Himgs & _).
  exact Himgs.
Defined.

(** ** Rubber band *)

Lemma handleMouseMove_band e canvasElement s :
  isDraggingImage s = false →
  selectedImages s = ∅ →
  isPanning s = false →
  isSelecting s = true →
  handleMouseMove e canvasElement s
  = match canvasElement with
    | Some rect =>
        run (setLastMousePos (pointer e) s)
          [ setSelectionBox (λ prev,
              Box.mk (Box.startX prev) (Box.startY prev)
                     (band_corner (zoomLevel s) (panOffset s) e rect).1
                     (band_corner (zoomLevel s) (panOffset s) e rect).2) ]
    | None => setLastMousePos (pointer e) s
    end.
Proof.
  intros Hd Hsel Hp Hs. unfold handleMouseMove.
  rewrite Hd, Hsel, Hp, Hs, size_empty.
  rewrite bool_decide_eq_false_2 by lia.
  rewrite andb_false_r. by destruct canvasElement.
Qed.

Lemma band_moves s moves :
  isDraggingImage s = false →
  selectedImages s = ∅ →
  isPanning s = false →
  isSelecting s = true →
  let s' := steps s (move_events moves) in
  let c := band_end (zoomLevel s) (panOffset s)
             (Box.endX (selectionBox s), Box.endY (selectionBox s)) moves in
  selectionBox s'
  = Box.mk (Box.startX (selectionBox s)) (Box.startY (selectionBox s)) c.1 c.2
  ∧ images s' = images s
  ∧ selectedImages s' = ∅
  ∧ isSelecting s' = true.
Proof.
  revert s. induction moves as [|[e c] moves IH]; intros s Hd Hsel Hp Hs; simpl.
  - split; [by destruct (selectionBox s)|done].
  - pose proof (handleMouseMove_band e c s Hd Hsel Hp Hs) as Hstep.
    set (s1 := handleMouseMove e c s) in *.
    assert (isDraggingImage s1 = false ∧ selectedImages s1 = ∅
            ∧ isPanning s1 = false ∧ isSelecting s1 = true
            ∧ images s1 = images s ∧ zoomLevel s1 = zoomLevel s
            ∧ panOffset s1 = panOffset s
            ∧ Box.startX (selectionBox s1) = Box.startX (selectionBox s)
            ∧ Box.startY (selectionBox s1) = Box.startY (selectionBox s)
            ∧ (Box.endX (selectionBox s1), Box.endY (selectionBox s1))
              = match c with
                | Some rect => band_corner (zoomLevel s) (panOffset s) e rect
                | None => (Box.endX (selectionBox s), Box.endY (selectionBox s))
                end)
      as (Hd1 & Hsel1 & Hp1 & Hs1 & Hi1 & Hz1 & Hpan1 & Hsx & Hsy & Hend).
    { rewrite Hstep. destruct c; simpl; split_and!; done. }
    destruct (IH s1 Hd1 Hsel1 Hp1 Hs1) as (Hbox & Himgs & Hempty & Hmode).
    fold (steps s1 (move_events moves)).
    rewrite Hbox, Himgs, Hempty, Hmode, Hsx, Hsy, Hend, Hi1, Hz1, Hpan1.
    done.
Qed.

(** A primary-button press on the empty canvas followed by any run of
    pointer moves (no single drag or pan being in progress): the band runs
    from the canvas point of the press to the canvas point of the last
    move that found the canvas element; the moves in between leave no
    trace, the images are untouched and the selection stays empty.  The
    release then selects the images whose centre lies between these two
    points. *)
Theorem rubber_band_follows_pointer (s : State) (e : MouseEvent.t) (rect : Rect.t)
    (moves : list (MouseEvent.t * option Rect.t)) :
  isDraggingImage s = false →
  isPanning s = false →
  MouseEvent.button e = 0%Z →
  let s' := steps (handleCanvasMouseDown e true rect s) (move_events moves) in
  let start := band_corner (zoomLevel s) (panOffset s) e rect in
  let current := band_end (zoomLevel s) (panOffset s) start moves in
  let band := Box.mk start.1 start.2 current.1 current.2 in
  selectionBox s' = band
  ∧ images s' = images s
  ∧ selectedImages s' = ∅
  ∧ (∀ id, id ∈ selectedImages (handleMouseUp s')
           ↔ ∃ img, img ∈ images s ∧ ImageItem.id img = id
                    ∧ center_inside band img).
Proof.
  intros Hd Hp Hb s' start current band.
  assert (handleCanvasMouseDown e true rect s
          = run s [ setSelectedImages ∅; setIsSelecting true;
                    setSelectionBox (λ _, Box.mk start.1 start.2 start.1 start.2) ])
    as Hpress.
  { unfold handleCanvasMouseDown. by rewrite Hb. }
  set (s1 := handleCanvasMouseDown e true rect s) in *.
  assert (isDraggingImage s1 = false) as Hd1 by (by rewrite Hpress).
  assert (selectedImages s1 = ∅) as Hsel1 by (by rewrite Hpress).
  assert (isPanning s1 = false) as Hp1 by (by rewrite Hpress).
  assert (isSelecting s1 = true) as Hs1 by (by rewrite Hpress).
  destruct (band_moves s1 moves Hd1 Hsel1 Hp1 Hs1) as (Hbox & Himgs & Hempty & Hmode).
  fold s' in Hbox, Himgs, Hempty, Hmode.
  assert (selectionBox s' = band) as Hband.
  { rewrite Hbox, Hpress. simpl. unfold band, current.
    reflexivity. }
  assert (images s' = images s) as Himgs' by (by rewrite Himgs, Hpress).
  split; [exact Hband|]. split; [exact Himgs'|]. split; [exact Hempty|].
  intros id. destruct (handleMouseUp_selecting s' Hmode) as [-> _].
  rewrite Hband, Himgs'. apply elem_of_box_selection.
Qed.

Lemma rubber_band_follows_pointer_witness :
  let e := sample_press 100 100 false in
  let moves := [ (sample_press 130 90 false, Some sample_rect);
                 (sample_press 400 380 false, None);
                 (sample_press 160 200 false, Some sample_rect) ] in
  (isDraggingImage five_images = false ∧ isPanning five_images = false
   ∧ MouseEvent.button e = 0%Z)
  ∧ selectedImages (steps (handleCanvasMouseDown e true sample_rect five_images)
                      (move_events moves)) = ∅.
Proof.
  intros e moves.
  assert (isDraggingImage five_images = false) as Hd by reflexivity.
  assert (isPanning five_images = false) as Hp by reflexivity.
  assert (MouseEvent.button e = 0%Z) as Hb by reflexivity.
  split; [exact (conj Hd (conj Hp Hb))|].
  destruct (rubber_band_follows_pointer five_images e sample_rect moves Hd Hp Hb)
    as (_ & _ & Hempty & _).
  exact Hempty.
Defined.

(** ** Release and gesture flags *)

(** A release ends every gesture, from any state: the four gesture flags
    are clear and no drag anchor is left, while images, zoom level and pan
    offset are as before; a pointer move that follows changes nothing but
    the recorded pointer position. *)
Theorem mouse_up_returns_to_idle (s : State) (e : MouseEvent.t)
    (canvasElement : option Rect.t) :
  let s' := handleMouseUp s in
  modes s' = 0%nat
  ∧ selectedImage s' = None
  ∧ images s' = images s
  ∧ zoomLevel s' = zoomLevel s
  ∧ panOffset s' = panOffset s
  ∧ (isSelecting s = false → selectedImages s' = selectedImages s)
  ∧ handleMouseMove e canvasElement s' = setLastMousePos (pointer e) s'.
Proof.
  unfold handleMouseUp, handleMouseMove, modes.
  destruct (isSelecting s) eqn:Hs; simpl; rewrite ?Hs; by split_and!.
Qed.

Lemma modes_handleMouseMove e c s : modes (handleMouseMove e c s) = modes s.
Proof. unfold handleMouseMove. by repeat case_match. Qed.

Lemma modes_0 s :
  modes s = 0%nat →
  isDraggingImage s = false ∧ isDraggingGroup s = false
  ∧ isSelecting s = false ∧ isPanning s = false.
Proof.
  unfold modes.
  destruct (isDraggingImage s), (isDraggingGroup s), (isSelecting s),
    (isPanning s); simpl; intros; done || lia.
Qed.

Lemma modes_press s ev :
  is_press ev → modes s = 0%nat → (modes (step s ev) ≤ 1)%nat.
Proof.
  intros Hpress (Hd & Hg & Hs & Hp)%modes_0.
  destruct ev; simpl in *; try done.
  - unfold handleImageMouseDown.
    repeat case_match; unfold modes; simpl; rewrite ?Hd, ?Hg, ?Hs, ?Hp; simpl; lia.
  - unfold handleCanvasMouseDown.
    repeat case_match; unfold modes; simpl; rewrite ?Hd, ?Hg, ?Hs, ?Hp; simpl; lia.
Qed.

Lemma modes_step s ev :
  (modes s ≤ 1)%nat →
  (is_press ev → modes s = 0%nat) →
  (modes (step s ev) ≤ 1)%nat.
Proof.
  intros Hs Hidle. destruct ev;
    try (by apply modes_press; [|apply Hidle]); simpl.
  - by rewrite modes_handleMouseMove.
  - unfold handleMouseUp, modes. destruct (isSelecting s) eqn:Hsel; simpl; rewrite ?Hsel; simpl; lia.
  - done.
  - done.
  - done.
  - done.
  - done.
  - done.
Qed.

(** As long as every press arrives while no gesture flag is set, at most
    one of the flags [isDraggingImage], [isDraggingGroup], [isSelecting]
    and [isPanning] is set after every event: moves, wheel notches, clicks
    and loads never set a flag, a press sets at most one, a release clears
    all four. *)
Theorem one_gesture_at_a_time (s : State) (evs : list Event) :
  (modes s ≤ 1)%nat →
  presses_when_idle s evs →
  (modes (steps s evs) ≤ 1)%nat.
Proof.
  revert s. induction evs as [|ev evs IH]; intros s Hs Hevs; [done|].
  destruct Hevs as [Hidle Hevs]. simpl. apply IH; [|done].
  by apply modes_step.
Qed.

Lemma one_gesture_at_a_time_witness :
  let evs := [ CanvasMouseDown (sample_press 100 100 false) true sample_rect;
               MouseMove (sample_press 120 130 false) (Some sample_rect);
               MouseUp;
               CanvasMouseDown (MouseEvent.mk 0 0 1 false false) true sample_rect;
               Wheel (Qc_of_Z 120) ] in
  ((modes five_images ≤ 1)%nat ∧ presses_when_idle five_images evs)
  ∧ (modes (steps five_images evs) ≤ 1)%nat.
Proof.
  intros evs.
  assert (modes five_images ≤ 1)%nat as Hs by (vm_compute; lia).
  assert (presses_when_idle five_images evs) as Hevs
    by (repeat split; intros []; reflexivity).
  split; [exact (conj Hs Hevs)|].
  exact (one_gesture_at_a_time five_images evs Hs Hevs).
Defined.

(** The condition on the presses is needed: a middle-button press on the
    canvas while an image is held with the primary button leaves two flags
    set. *)
Example two_buttons_two_modes :
  modes (steps five_images
           [ ImageMouseDown (sample_press 10 10 false) (Q2Qc (4001 # 4)) 2000;
             CanvasMouseDown (MouseEvent.mk 0 0 1 false false) true sample_rect ])
  = 2%nat.
Proof. reflexivity. Qed.

(** ** Modifier click *)

(** A press on an image with the control or meta key held is a pure
    selection toggle: it flips the membership of that image's id in the
    selection and of no other id, and it touches neither the images nor the
    gesture flags nor the drag anchor; pressing again undoes it (the state
    is back to what it was). *)
Theorem modifier_click_toggles (s : State) (e : MouseEvent.t) (imageId : Qc)
    (now now' : Z) :
  MouseEvent.ctrlKey e || MouseEvent.metaKey e = true →
  let s' := handleImageMouseDown e imageId now s in
  (imageId ∈ selectedImages s' ↔ imageId ∉ selectedImages s)
  ∧ (∀ id, id ≠ imageId → id ∈ selectedImages s' ↔ id ∈ selectedImages s)
  ∧ images s' = images s
  ∧ modes s' = modes s
  ∧ selectedImage s' = selectedImage s
  ∧ dragOffset s' = dragOffset s
  ∧ handleImageMouseDown e imageId now' s' = s.
Proof.
  intros Hmod s'. unfold s', handleImageMouseDown. rewrite Hmod. simpl.
  destruct (decide (imageId ∈ selectedImages s)) as [Hin|Hin]; simpl.
  - assert (imageId ∉ selectedImages s ∖ {[imageId]}) as Hout.
    { rewrite elem_of_difference, elem_of_singleton. tauto. }
    rewrite decide_False by done.
    split; [tauto|]. split; [|split_and!; try done].
    + intros id Hid. rewrite elem_of_difference, elem_of_singleton. tauto.
    + destruct s; simpl in *. unfold setSelectedImages; simpl. f_equal.
      apply set_eq. intros id.
      rewrite elem_of_union, elem_of_difference, elem_of_singleton.
      destruct (decide (id = imageId)) as [->|]; tauto.
  - assert (imageId ∈ {[imageId]} ∪ selectedImages s) as Hnow.
    { rewrite elem_of_union, elem_of_singleton. tauto. }
    rewrite decide_True by done.
    split; [tauto|]. split; [|split_and!; try done].
    + intros id Hid. rewrite elem_of_union, elem_of_singleton. tauto.
    + destruct s; simpl in *. unfold setSelectedImages; simpl. f_equal.
      apply set_eq. intros id.
      rewrite elem_of_difference, elem_of_union, elem_of_singleton.
      destruct (decide (id = imageId)) as [->|]; tauto.
Qed.

Lemma modifier_click_toggles_witness :
  let e := sample_press 10 10 true in
  MouseEvent.ctrlKey e || MouseEvent.metaKey e = true
  ∧ handleImageMouseDown e (Q2Qc (4001 # 4)) 2001
      (handleImageMouseDown e (Q2Qc (4001 # 4)) 2000 five_images) = five_images.
Proof.
  intros e.
  assert (MouseEvent.ctrlKey e || MouseEvent.metaKey e = true) as Hmod by reflexivity.
  split; [exact Hmod|].
  destruct (modifier_click_toggles five_images e (Q2Qc (4001 # 4)) 2000 2001 Hmod)
    as (_ & _ & _ & _ & _ & _ & Hback).
  exact Hback.
Defined.

(** ** The item store as a whole *)

Lemma fmap_filter_comm {A B} (f : A → B) (P : B → Prop) `{∀ y, Decision (P y)}
    (l : list A) :
  f <$> filter (λ x, P (f x)) l = filter P (f <$> l).
Proof.
  induction l as [|x l IH]; [done|].
  rewrite fmap_cons, !filter_cons.
  destruct (decide (P (f x))); [by rewrite fmap_cons, IH|done].
Qed.

Lemma shapes_fmap_same_shape (f : ImageItem.t → ImageItem.t) (imgs : list ImageItem.t) :
  (∀ img, shape (f img) = shape img) →
  shape <$> (f <$> imgs) = shape <$> imgs.
Proof.
  intros Hf. rewrite <-list_fmap_compose. apply list_fmap_ext.
  intros _ img _. apply Hf.
Qed.

(** The effect of one event on the shapes of the images. *)
Lemma shapes_step (s : State) (ev : Event) :
  shapes (step s ev)
  = match ev with
    | ImageLoaded imgWidth imgHeight dropX dropY env =>
        shapes s ++ [shape (newImage imgWidth imgHeight dropX dropY env)]
    | ClickRemove id => filter (λ sh, shape_id sh ≠ id) (shapes s)
    | ClickDeleteSelected => filter (λ sh, shape_id sh ∉ selectedImages s) (shapes s)
    | _ => shapes s
    end.
Proof.
  unfold shapes. destruct ev; simpl.
  - unfold handleMouseMove.
    repeat case_match; simpl; try done;
      apply shapes_fmap_same_shape; intros img; by destruct (decide _).
  - unfold handleMouseUp. by destruct (isSelecting s).
  - done.
  - unfold handleImageMouseDown.
    repeat case_match; simpl; try done;
      apply shapes_fmap_same_shape; intros img; by destruct (decide _).
  - unfold handleCanvasMouseDown. by repeat case_match.
  - by rewrite <-(fmap_filter_comm shape (λ sh, shape_id sh ≠ id)).
  - apply list_eq. intros i.
    rewrite !list_lookup_fmap, list_lookup_imap. by destruct (images s !! i).
  - done.
  - by rewrite <-(fmap_filter_comm shape (λ sh, shape_id sh ∉ selectedImages s)).
  - by rewrite fmap_app.
Qed.

(** What each event does to the list of (id, width, height, original
    width, original height) of the images: a completed load appends one
    entry, the per-image delete removes the entries with the clicked id,
    the bulk delete removes the entries with a selected id, and every
    other event (moves, presses, releases, wheel, grid arrangement, view
    reset) leaves the list as it is: no handler ever changes the id or the
    size of an image, reorders the images or duplicates one. *)
Theorem item_store_frame (s : State) (ev : Event) :
  shapes (step s ev)
  = match ev with
    | ImageLoaded imgWidth imgHeight dropX dropY env =>
        shapes s ++ [shape (newImage imgWidth imgHeight dropX dropY env)]
    | ClickRemove id => filter (λ sh, shape_id sh ≠ id) (shapes s)
    | ClickDeleteSelected => filter (λ sh, shape_id sh ∉ selectedImages s) (shapes s)
    | _ => shapes s
    end.
Proof. apply shapes_step. Qed.

(** ** Selection validity *)

Lemma step_selection_valid_unselected s ev :
  selection_valid s →
  enabled s ev →
  match ev with
  | ClickRemove id => id ∉ selectedImages s
  | _ => True
  end →
  selection_valid (step s ev).
Proof.
  intros Hvalid Hen Hdel.
  assert ((∃ id, ev = ClickRemove id) ∨ ∀ id, ev ≠ ClickRemove id) as [[id ->]|Hother]
    by (destruct ev; (by right) || (left; by eexists)).
  - simpl. intros id' Hid'. rewrite selectedImages_removeImage in Hid'.
    rewrite ids_removeImage. apply list_elem_of_filter.
    split; [by intros ->|by apply Hvalid].
  - by apply step_selection_valid.
Qed.

(** Along every sequence of events the page can dispatch in which no
    per-image delete hits a selected image, every selected id is the id of
    a stored image: the per-image delete of a selected image is the only
    way to a dangling selection. *)
Theorem selection_valid_without_selected_delete (s : State) (evs : list Event) :
  selection_valid s →
  trace_enabled s evs →
  deletes_unselected s evs →
  selection_valid (steps s evs).
Proof.
  revert s. induction evs as [|ev evs IH]; intros s Hs Hen Hdel; [done|].
  destruct Hen as [Hen Hens]. destruct Hdel as [Hdel Hdels].
  simpl. apply IH; [|done..]. by apply step_selection_valid_unselected.
Qed.

Lemma selection_valid_without_selected_delete_witness :
  let evs := [ sample_load 1000 (Q2Qc (1 # 4)); sample_load 1001 (Q2Qc (1 # 4));
               ImageMouseDown (sample_press 10 10 false) (Q2Qc (4001 # 4)) 2000;
               MouseUp;
               ClickRemove (Q2Qc (4005 # 4));
               ClickDeleteSelected ] in
  (selection_valid initial_state ∧ trace_enabled initial_state evs
   ∧ deletes_unselected initial_state evs)
  ∧ selection_valid (steps initial_state evs).
Proof.
  intros evs.
  assert (selection_valid initial_state) as Hs
    by (intros id Hid; by apply elem_of_empty in Hid).
  assert (trace_enabled initial_state evs) as Hen by by_evaluation.
  assert (deletes_unselected initial_state evs) as Hdel by by_evaluation.
  split; [exact (conj Hs (conj Hen Hdel))|].
  exact (selection_valid_without_selected_delete initial_state evs Hs Hen Hdel).
Defined.

(** ** Bulk delete *)

Lemma images_foldr_removeImage s (l : list Qc) :
  images (foldr removeImage s l)
  = filter (λ img, ImageItem.id img ∉ l) (images s).
Proof.
  induction l as [|id l IH]; simpl.
  - symmetry. apply filter_all. intros img _. apply not_elem_of_nil.
  - rewrite IH, list_filter_filter. apply list_filter_iff. intros img.
    rewrite not_elem_of_cons. tauto.
Qed.

(** The bulk delete removes the same images as clicking the delete button
    of every selected id in turn: an image stays exactly when its id is
    not selected, in the old order.  Unlike those single deletes it also
    empties the selection, so the result satisfies the selection
    invariant whatever the state before. *)
Theorem deleteSelectedImages_as_removals (s : State) :
  let s' := deleteSelectedImages s in
  images s' = images (foldr removeImage s (elements (selectedImages s)))
  ∧ (∀ img, img ∈ images s'
            ↔ img ∈ images s ∧ ImageItem.id img ∉ selectedImages s)
  ∧ images s' `sublist_of` images s
  ∧ selectedImages s' = ∅
  ∧ selectedImages (foldr removeImage s (elements (selectedImages s)))
    = selectedImages s
  ∧ selection_valid s'.
Proof.
  simpl. split_and!.
  - rewrite images_foldr_removeImage. apply list_filter_iff. intros img.
    by rewrite elem_of_elements.
  - intros img. rewrite list_elem_of_filter. tauto.
  - apply sublist_filter.
  - done.
  - induction (elements (selectedImages s)) as [|id l IH]; [done|].
    exact IH.
  - intros id Hid. by apply elem_of_empty in Hid.
Qed.

(** ** View reset *)


(** ** Size and placement of a new image *)

(** Linear arithmetic on [Qc] through the fractions underneath. *)
Ltac qc_to_q :=
  unfold Qcle, Qclt, Qcminus, Qcopp, Qcplus, Qcmult in *;
  cbn [this Q2Qc] in *;
  repeat (setoid_rewrite Qred_correct);
  repeat match goal with H : _ |- _ => setoid_rewrite Qred_correct in H end.

Lemma Qc_pos_neq_0 (a : Qc) : 0 < a → a ≠ 0.
Proof. intros Ha ->. by apply (Qclt_not_eq 0 0). Qed.

Lemma Qcdiv_pos (a b : Qc) : 0 < a → 0 < b → 0 < a / b.
Proof. intros Ha Hb. apply Qcmult_pos_pos; [done|by apply Qcinv_pos]. Qed.

Lemma Qcdiv_gt_1 (a b : Qc) : 0 < b → 1 < a / b ↔ b < a.
Proof.
  intros Hb. rewrite (Qcmult_lt_mono_pos_r b a (/ b)) by (by apply Qcinv_pos).
  by rewrite Qcmult_inv_r by (by apply Qc_pos_neq_0).
Qed.

Lemma newImage_size w h dropX dropY env :
  let aspectRatio := w / h in
  (ImageItem.width (newImage w h dropX dropY env),
   ImageItem.height (newImage w h dropX dropY env))
  = if decide (1 < aspectRatio)
    then (Qc_of_Z 200, Qc_of_Z 200 / aspectRatio)
    else (Qc_of_Z 200 * aspectRatio, Qc_of_Z 200).
Proof.
  unfold newImage. simpl.
  destruct (decide (1 < w / h)), dropX, dropY; done.
Qed.

(** The size rule of [addImage], for a decoded picture of positive size. *)
Lemma newImage_size_spec (w h : Qc) (dropX dropY : option Qc) (env : AddEnv.t) :
  0 < w →
  0 < h →
  let img := newImage w h dropX dropY env in
  (h < w → ImageItem.width img = Qc_of_Z 200
           ∧ ImageItem.height img = Qc_of_Z 200 * h / w)
  ∧ (w ≤ h → ImageItem.height img = Qc_of_Z 200
             ∧ ImageItem.width img = Qc_of_Z 200 * w / h)
  ∧ ImageItem.width img * h = ImageItem.height img * w
  ∧ 0 < ImageItem.width img ≤ Qc_of_Z 200
  ∧ 0 < ImageItem.height img ≤ Qc_of_Z 200
  ∧ ImageItem.originalWidth img = w
  ∧ ImageItem.originalHeight img = h.
Proof.
  intros Hw Hh img.
  assert (w ≠ 0) as Hw0 by by apply Qc_pos_neq_0.
  assert (h ≠ 0) as Hh0 by by apply Qc_pos_neq_0.
  assert (0 < Qc_of_Z 200) as H200 by done.
  pose proof (newImage_size w h dropX dropY env) as Hsize. fold img in Hsize.
  simpl in Hsize.
  assert (ImageItem.originalWidth img = w ∧ ImageItem.originalHeight img = h)
    as [How Hoh].
  { unfold img, newImage. destruct (decide (1 < w / h)), dropX, dropY; done. }
  destruct (decide (1 < w / h)) as [Hwide|Hnarrow].
  - injection Hsize as Hwd Hht.
    assert (h < w) as Hlt by by apply Qcdiv_gt_1.
    assert (ImageItem.height img = Qc_of_Z 200 * h / w) as Hht'
      by (rewrite Hht; by field).
    split; [done|]. split.
    { intros Hle. by destruct (Qclt_not_le _ _ Hlt). }
    split; [rewrite Hwd, Hht'; by field|].
    split; [rewrite Hwd; split; [done|apply Qcle_refl]|].
    split; [|done]. rewrite Hht'. split.
    + apply Qcdiv_pos; [by apply Qcmult_pos_pos|done].
    + apply (Qcmult_le_mono_pos_r _ _ w); [done|].
      replace (Qc_of_Z 200 * h / w * w) with (Qc_of_Z 200 * h) by by field.
      apply Qcmult_le_mono_nonneg_l; [done|by apply Qclt_le_weak].
  - injection Hsize as Hwd Hht.
    assert (w ≤ h) as Hle.
    { apply Qcle_ngt. intros Hlt. apply Hnarrow. by apply Qcdiv_gt_1. }
    assert (ImageItem.width img = Qc_of_Z 200 * w / h) as Hwd'
      by (rewrite Hwd; by field).
    split.
    { intros Hlt. by destruct (Qclt_not_le _ _ Hlt). }
    split; [done|].
    split; [rewrite Hht, Hwd'; by field|].
    split; [|split; [rewrite Hht; split; [done|apply Qcle_refl]|done]].
    rewrite Hwd'. split.
    + apply Qcdiv_pos; [by apply Qcmult_pos_pos|done].
    + apply (Qcmult_le_mono_pos_r _ _ h); [done|].
      replace (Qc_of_Z 200 * w / h * h) with (Qc_of_Z 200 * w) by by field.
      by apply Qcmult_le_mono_nonneg_l.
Qed.

(** For a decoded picture of positive width [w] and height [h], the
    displayed size keeps the aspect ratio ([width * h = height * w]) and
    fits the longer side to 200: a picture wider than high gets width 200
    and height [200 * h / w], any other gets height 200 and width
    [200 * w / h]; both sides are positive and at most 200.  The original
    size is recorded as it is. *)
Theorem new_image_size (w h : Qc) (dropX dropY : option Qc) (env : AddEnv.t) :
  0 < w →
  0 < h →
  let img := newImage w h dropX dropY env in
  (h < w → ImageItem.width img = Qc_of_Z 200
           ∧ ImageItem.height img = Qc_of_Z 200 * h / w)
  ∧ (w ≤ h → ImageItem.height img = Qc_of_Z 200
             ∧ ImageItem.width img = Qc_of_Z 200 * w / h)
  ∧ ImageItem.width img * h = ImageItem.height img * w
  ∧ 0 < ImageItem.width img ≤ Qc_of_Z 200
  ∧ 0 < ImageItem.height img ≤ Qc_of_Z 200
  ∧ ImageItem.originalWidth img = w
  ∧ ImageItem.originalHeight img = h.
Proof. apply newImage_size_spec. Qed.

Lemma new_image_size_witness :
  (0 < Qc_of_Z 400 ∧ 0 < Qc_of_Z 300)
  ∧ ImageItem.width (newImage (Qc_of_Z 400) (Qc_of_Z 300) None None
                       (sample_env 1000 (Q2Qc (1 # 4)))) = Qc_of_Z 200
  ∧ ImageItem.height (newImage (Qc_of_Z 400) (Qc_of_Z 300) None None
                        (sample_env 1000 (Q2Qc (1 # 4))))
    = Qc_of_Z 200 * Qc_of_Z 300 / Qc_of_Z 400.
Proof.
  assert (0 < Qc_of_Z 400) as Hw by reflexivity.
  assert (0 < Qc_of_Z 300) as Hh by reflexivity.
  split; [exact (conj Hw Hh)|].
  destruct (new_image_size (Qc_of_Z 400) (Qc_of_Z 300) None None
              (sample_env 1000 (Q2Qc (1 # 4))) Hw Hh) as (Hwide & _).
  apply Hwide. reflexivity.
Defined.

Lemma Qinv_two : (/ (1 + 1) == 1 # 2)%Q.
Proof. reflexivity. Qed.

Ltac qc_lra :=
  unfold Qcdiv, Qcinv in *; qc_to_q;
  repeat (setoid_rewrite Qinv_two);
  repeat match goal with H : _ |- _ => setoid_rewrite Qinv_two in H end;
  repeat match goal with
         | |- context [this (Qc_of_Z ?n)] => change (this (Qc_of_Z n)) with (inject_Z n)
         | H : context [this (Qc_of_Z ?n)] |- _ =>
             change (this (Qc_of_Z n)) with (inject_Z n) in H
         end;
  unfold inject_Z in *; lra.

Lemma newImage_position w h dropX dropY env :
  let img := newImage w h dropX dropY env in
  (ImageItem.x img, ImageItem.y img)
  = match dropX, dropY with
    | Some dropX, Some dropY =>
        (Math_max 0 (Math_min (dropX - ImageItem.width img / 2)
                       (AddEnv.innerWidth env - ImageItem.width img)),
         Math_max (Qc_of_Z 100)
           (Math_min (dropY - ImageItem.height img / 2)
              (AddEnv.innerHeight env - ImageItem.height img - Qc_of_Z 50)))
    | _, _ =>
        (AddEnv.random_x env
         * (AddEnv.innerWidth env - ImageItem.width img - Qc_of_Z 100) + Qc_of_Z 50,
         AddEnv.random_y env
         * (AddEnv.innerHeight env - ImageItem.height img - Qc_of_Z 300) + Qc_of_Z 200)
    end.
Proof.
  unfold newImage. simpl.
  destruct (decide (1 < w / h)), dropX, dropY; done.
Qed.

(** The rearrangements of inequalities that the placement bounds need. *)
Section LinearFacts.
Implicit Types a b d x y wd ht W H : Qc.

Lemma fits_width wd W : wd ≤ W → 0 ≤ W - wd.
Proof. intros. qc_lra. Qed.

Lemma inside_width x wd W : x ≤ W - wd → x + wd ≤ W.
Proof. intros. qc_lra. Qed.

Lemma fits_height ht H : ht + Qc_of_Z 150 ≤ H → Qc_of_Z 100 ≤ H - ht - Qc_of_Z 50.
Proof. intros. qc_lra. Qed.

Lemma inside_height y ht H : y ≤ H - ht - Qc_of_Z 50 → y + ht + Qc_of_Z 50 ≤ H.
Proof. intros. qc_lra. Qed.

Lemma centred_right d wd W : d + wd / 2 ≤ W → d - wd / 2 ≤ W - wd.
Proof. intros. qc_lra. Qed.

Lemma centred_bottom d ht H :
  d + ht / 2 + Qc_of_Z 50 ≤ H → d - ht / 2 ≤ H - ht - Qc_of_Z 50.
Proof. intros. qc_lra. Qed.

Lemma centred d wd : d - wd / 2 + wd / 2 = d.
Proof. apply Qc_is_canon. qc_lra. Qed.

Lemma narrow_window wd W : W < wd → W - wd < 0.
Proof. intros. qc_lra. Qed.

Lemma low_window ht H : H < ht + Qc_of_Z 150 → H - ht - Qc_of_Z 50 < Qc_of_Z 100.
Proof. intros. qc_lra. Qed.




End LinearFacts.

(** The placement rule [Math.max(lo, Math.min(d, hi))] on one axis. *)
Lemma place_between (lo d hi : Qc) :
  let v := Math_max lo (Math_min d hi) in
  lo ≤ v
  ∧ (lo ≤ hi → v ≤ hi)
  ∧ (lo ≤ d → d ≤ hi → v = d)
  ∧ (d ≤ lo → v = lo)
  ∧ (hi < lo → v = lo).
Proof.
  simpl. split; [apply Math_max_ge_l|].
  split; [intros; apply Math_max_lub; [done|apply Math_min_le_r]|].
  split; [|split].
  - intros Hlo Hhi.
    destruct (Math_min_spec d hi) as [[_ ->]|[Hlt _]];
      [|by destruct (Qclt_not_le _ _ Hlt)].
    destruct (Math_max_spec lo d) as [[_ ->]|[Hlt _]];
      [done|by destruct (Qclt_not_le _ _ Hlt)].
  - intros Hd.
    destruct (Math_max_spec lo (Math_min d hi)) as [[Hle ->]|[_ ->]]; [|done].
    apply Qcle_antisym; [|done]. trans d; [apply Math_min_le_l|done].
  - intros Hhi.
    destruct (Math_max_spec lo (Math_min d hi)) as [[Hle ->]|[_ ->]]; [|done].
    destruct (Qclt_not_le _ _ Hhi). trans (Math_min d hi); [done|apply Math_min_le_r].
Qed.

(** An image dropped or pasted at [(dropX, dropY)] is centred on that
    point when it fits there, and is otherwise pushed back inside the
    window: it never starts left of 0 or above 100, and when the window is
    large enough for it, it ends at most at the right edge and at least 50
    above the bottom edge.  At the left and top limits the image sits at 0
    and at 100 whatever the window size (so a drop point at the origin
    gives the position (0, 100)); in a window too small for the image the
    left and top limits win. *)
Theorem dropped_image_placement (w h dropX dropY : Qc) (env : AddEnv.t) :
  let img := newImage w h (Some dropX) (Some dropY) env in
  let W := AddEnv.innerWidth env in
  let H := AddEnv.innerHeight env in
  0 ≤ ImageItem.x img
  ∧ Qc_of_Z 100 ≤ ImageItem.y img
  ∧ (ImageItem.width img ≤ W → ImageItem.x img + ImageItem.width img ≤ W)
  ∧ (ImageItem.height img + Qc_of_Z 150 ≤ H →
       ImageItem.y img + ImageItem.height img + Qc_of_Z 50 ≤ H)
  ∧ (0 ≤ dropX - ImageItem.width img / 2 →
       dropX + ImageItem.width img / 2 ≤ W →
       ImageItem.x img + ImageItem.width img / 2 = dropX)
  ∧ (Qc_of_Z 100 ≤ dropY - ImageItem.height img / 2 →
       dropY + ImageItem.height img / 2 + Qc_of_Z 50 ≤ H →
       ImageItem.y img + ImageItem.height img / 2 = dropY)
  ∧ (dropX - ImageItem.width img / 2 ≤ 0 → ImageItem.x img = 0)
  ∧ (dropY - ImageItem.height img / 2 ≤ Qc_of_Z 100 → ImageItem.y img = Qc_of_Z 100)
  ∧ (W < ImageItem.width img → ImageItem.x img = 0)
  ∧ (H < ImageItem.height img + Qc_of_Z 150 → ImageItem.y img = Qc_of_Z 100).
Proof.
  intros img W H.
  pose proof (newImage_position w h (Some dropX) (Some dropY) env) as Hpos.
  fold img W H in Hpos. simpl in Hpos. injection Hpos as Hx Hy.
  set (wd := ImageItem.width img) in *. set (ht := ImageItem.height img) in *.
  set (x := ImageItem.x img) in *. set (y := ImageItem.y img) in *.
  clearbody wd ht x y W H. clear img.
  destruct (place_between 0 (dropX - wd / 2) (W - wd))
    as (Hx1 & Hx2 & Hx3 & Hx4 & Hx5).
  destruct (place_between (Qc_of_Z 100) (dropY - ht / 2) (H - ht - Qc_of_Z 50))
    as (Hy1 & Hy2 & Hy3 & Hy4 & Hy5).
  rewrite <-Hx in Hx1, Hx2, Hx3, Hx4, Hx5.
  rewrite <-Hy in Hy1, Hy2, Hy3, Hy4, Hy5. clear Hx Hy.
  split; [exact Hx1|]. split; [exact Hy1|].
  split. { intros Hfit. by apply inside_width, Hx2, fits_width. }
  split. { intros Hfit. by apply inside_height, Hy2, fits_height. }
  split. { intros Hl Hr. rewrite Hx3; [apply centred|done|by apply centred_right]. }
  split. { intros Hl Hr. rewrite Hy3; [apply centred|done|by apply centred_bottom]. }
  split; [exact Hx4|]. split; [exact Hy4|].
  split. { intros Hsmall. by apply Hx5, narrow_window. }
  intros Hsmall. by apply Hy5, low_window.
Qed.

Lemma dropped_image_placement_witness :
  let img := newImage (Qc_of_Z 400) (Qc_of_Z 300) (Some 0) (Some 0)
               (sample_env 1000 (Q2Qc (1 # 4))) in
  ImageItem.x img = 0 ∧ ImageItem.y img = Qc_of_Z 100.
Proof.
  intros img.
  destruct (dropped_image_placement (Qc_of_Z 400) (Qc_of_Z 300) 0 0
              (sample_env 1000 (Q2Qc (1 # 4))))
    as (_ & _ & _ & _ & _ & _ & Hleft & Htop & _).
  split; [apply Hleft|apply Htop]; by vm_compute.
Defined.



(** * Import, paste and copy *)

(** ** The drop overlay *)

Lemma zone_step_ok z ev :
  zone_ok z →
  match ev with DragLeave => (0 < DropZone.dragCounter z)%Z | _ => True end →
  zone_ok (zone_step z ev).
Proof.
  intros [Hnn Hiff] Hev. destruct ev; simpl.
  - split; simpl; [lia|]. split; [lia|done].
  - unfold handleDragLeave. split; simpl; [lia|].
    destruct (decide (DropZone.dragCounter z - 1 = 0)%Z) as [H0|H0].
    + split; [done|lia].
    + rewrite Hiff. lia.
  - unfold handleDrop. case_match; simpl; (split; simpl; [lia|split; [done|lia]]).
Qed.

(** While every leave answers an open enter (the browser sends the
    enter/leave pairs of nested elements), the overlay is shown exactly
    while the counter of open enters is positive, after every event; and a
    drop hides the overlay and resets the counter from any state. *)
Theorem overlay_tracks_nesting (z : DropZone.t) (evs : list ZoneEvent) :
  zone_ok z →
  leaves_answer_enters z evs →
  zone_ok (zone_steps z evs)
  ∧ (∀ e files, zone_step (zone_steps z evs) (Drop e files) = initial_zone).
Proof.
  intros Hz Hevs. split.
  - revert z Hz Hevs. induction evs as [|ev evs IH]; intros z Hz Hevs; [done|].
    destruct Hevs as [Hev Hevs]. simpl. apply IH; [|done].
    by apply zone_step_ok.
  - intros e files. simpl. unfold handleDrop. by case_match.
Qed.

Lemma overlay_tracks_nesting_witness :
  let evs := [ DragEnter; DragEnter; DragLeave; DragLeave; DragEnter ] in
  (zone_ok initial_zone ∧ leaves_answer_enters initial_zone evs)
  ∧ zone_ok (zone_steps initial_zone evs).
Proof.
  intros evs.
  assert (zone_ok initial_zone) as Hz by (split; simpl; [lia|split; [done|lia]]).
  assert (leaves_answer_enters initial_zone evs) as Hevs by (simpl; lia).
  split; [exact (conj Hz Hevs)|].
  destruct (overlay_tracks_nesting initial_zone evs Hz Hevs) as [Hok _].
  exact Hok.
Defined.

(** The condition is needed: after a leave that answers no enter, the next
    enter shows the overlay with the counter at 0, and no further leave
    hides it. *)
Example stray_leave_sticks_overlay :
  zone_steps initial_zone [ DragLeave; DragEnter ] = DropZone.mk 0 true
  ∧ zone_steps initial_zone [ DragLeave; DragEnter; DragLeave ] = DropZone.mk (-1) true.
Proof. split; reflexivity. Qed.

(** ** Files that are imported *)

Lemma addImage_call_image file dropX dropY :
  is_image_file file = true →
  addImage_call file dropX dropY = [Load.mk file dropX dropY].
Proof. intros H. unfold addImage_call. by rewrite H. Qed.

Lemma mjoin_imap_addImage_call (fx fy : nat → option Qc) (files : list File.t) :
  Forall (λ file, is_image_file file = true) files →
  mjoin (imap (λ index file, addImage_call file (fx index) (fy index)) files)
  = imap (λ index file, Load.mk file (fx index) (fy index)) files.
Proof.
  intros Hall. revert fx fy.
  induction Hall as [|file files Hfile _ IH]; intros fx fy; [done|].
  rewrite !imap_cons. simpl. rewrite addImage_call_image by done. simpl.
  f_equal. apply (IH (fx ∘ S) (fy ∘ S)).
Qed.

(** Both import paths start a load for every image file and for nothing
    else, in the order of the files.  The file picker passes no drop
    point.  A drop passes to the [k]-th image file (counting image files
    only) the drop point shifted by [20 * k] on both axes; a drop without
    any image file starts nothing and shows the images-only notice, and
    that is the only case in which the notice is shown. *)
Theorem import_starts_image_loads (e : MouseEvent.t) (files : list File.t)
    (z : DropZone.t) :
  let imageFiles := filter (λ file, is_image_file file = true) files in
  let dropped := handleDrop e files z in
  handleFileSelect files = (λ file, Load.mk file None None) <$> imageFiles
  ∧ DropResult.loads dropped
    = imap (λ k file,
              Load.mk file
                (Some (MouseEvent.clientX e + Qc_of_Z (Z.of_nat k * 20)))
                (Some (MouseEvent.clientY e + Qc_of_Z (Z.of_nat k * 20))))
           imageFiles
  ∧ (DropResult.toast dropped = Some ToastImagesOnly ↔ imageFiles = [])
  ∧ (DropResult.toast dropped = None ↔ imageFiles ≠ []).
Proof.
  intros imageFiles dropped. split; [|split].
  - unfold handleFileSelect, imageFiles.
    induction files as [|file files IH]; [done|].
    rewrite bind_cons, IH, filter_cons. unfold addImage_call.
    destruct (is_image_file file) eqn:Himg.
    + by rewrite decide_True.
    + by rewrite decide_False.
  - unfold dropped, handleDrop. fold imageFiles.
    destruct (decide (length imageFiles = 0%nat)) as [H0|H0]; simpl.
    + apply nil_length_inv in H0. by rewrite H0.
    + apply mjoin_imap_addImage_call. unfold imageFiles.
      apply Forall_forall. intros file Hfile.
      by apply list_elem_of_filter in Hfile as [? _].
  - unfold dropped, handleDrop. fold imageFiles.
    destruct (decide (length imageFiles = 0%nat)) as [H0|H0]; simpl.
    + apply nil_length_inv in H0. by rewrite H0.
    + assert (imageFiles ≠ []) by (intros Heq; by rewrite Heq in H0).
      split; split; done.
Qed.

(** ** Paste *)

Lemma lastMousePos_step s ev :
  lastMousePos (step s ev)
  = match ev with MouseMove e _ => pointer e | _ => lastMousePos s end.
Proof.
  destruct ev; simpl; try done.
  - unfold handleMouseMove. by repeat case_match.
  - unfold handleMouseUp. by destruct (isSelecting s).
  - unfold handleImageMouseDown. by repeat case_match.
  - unfold handleCanvasMouseDown. by repeat case_match.
Qed.

Lemma lastMousePos_steps s evs :
  lastMousePos (steps s evs) = last_move_pointer (lastMousePos s) evs.
Proof.
  revert s. induction evs as [|ev evs IH]; intros s; [done|].
  simpl. rewrite IH, lastMousePos_step. by destruct ev.
Qed.

(** The pointer position is recorded by every pointer move, in every mode
    (idle, dragging, panning, banding), and by nothing else: after any
    sequence of events [lastMousePos] is the position of the last move, or
    its old value when there was no move.  A paste passes exactly that
    point as the drop point of every load it starts, and it starts loads
    for image files only; without clipboard items it does nothing. *)
Theorem paste_at_last_pointer (s : State) (evs : list Event)
    (items : option (list ClipboardItem.t)) :
  let p := last_move_pointer (lastMousePos s) evs in
  lastMousePos (steps s evs) = p
  ∧ (∀ load, load ∈ paste_loads items (steps s evs) →
       Load.dropX load = Some (Point.x p)
       ∧ Load.dropY load = Some (Point.y p)
       ∧ is_image_file (Load.file load) = true)
  ∧ paste_loads None (steps s evs) = []
  ∧ paste_loads (Some []) (steps s evs) = [].
Proof.
  intros p. pose proof (lastMousePos_steps s evs) as Hp. fold p in Hp.
  split; [exact Hp|]. split; [|done].
  intros load Hload. unfold paste_loads, handlePaste in Hload.
  destruct items as [items|]; [|by apply elem_of_nil in Hload].
  apply list_elem_of_bind in Hload as ([loads toast] & Hin & Hstep). simpl in Hin.
  apply list_elem_of_bind in Hstep as (item & Hitem & _).
  destruct (decide (String.index 0 "image" (ClipboardItem.type item) ≠ None));
    [|by apply elem_of_nil in Hitem].
  destruct (ClipboardItem.getAsFile item) as [file|];
    [|by apply elem_of_nil in Hitem].
  apply list_elem_of_singleton in Hitem. injection Hitem as -> _.
  unfold addImage_call in Hin.
  destruct (is_image_file file) eqn:Himg; [|by apply elem_of_nil in Hin].
  apply list_elem_of_singleton in Hin. subst load. simpl. by rewrite Hp.
Qed.

(** Before any pointer move the recorded position is the origin, so a
    paste right after the page opened asks for the drop point (0, 0). *)
Example paste_before_any_move :
  paste_loads (Some [ ClipboardItem.mk "image/png" (Some (File.mk "" "image/png")) ])
    initial_state
  = [ Load.mk (File.mk "" "image/png") (Some 0) (Some 0) ].
Proof. reflexivity. Qed.

(** ** Copy shortcut *)

Lemma find_some_id (imgs : list ImageItem.t) (id : Qc) :
  id ∈ (ImageItem.id <$> imgs) →
  ∃ img, List.find (λ img, bool_decide (ImageItem.id img = id)) imgs = Some img
         ∧ img ∈ imgs ∧ ImageItem.id img = id.
Proof.
  induction imgs as [|a imgs IH]; simpl.
  - intros H. by apply elem_of_nil in H.
  - intros H. destruct (bool_decide (ImageItem.id a = id)) eqn:Ha.
    + apply bool_decide_eq_true in Ha. exists a.
      split; [done|]. split; [apply list_elem_of_here|done].
    + apply bool_decide_eq_false in Ha.
      apply elem_of_cons in H as [H|H]; [by destruct Ha|].
      destruct (IH H) as (img & Hf & Hin & Hid). exists img.
      split; [done|]. split; [by apply list_elem_of_further|done].
Qed.

Lemma find_some_elem (imgs : list ImageItem.t) (id : Qc) (img : ImageItem.t) :
  List.find (λ img, bool_decide (ImageItem.id img = id)) imgs = Some img →
  img ∈ imgs ∧ ImageItem.id img = id.
Proof.
  intros H. apply List.find_some in H as [Hin Hid].
  split; [by apply list_elem_of_In|by apply bool_decide_eq_true in Hid].
Qed.

Lemma filter_nil_iff {A} (P : A → Prop) `{∀ x, Decision (P x)} (l : list A) :
  filter P l = [] ↔ ∀ x, x ∈ l → ¬ P x.
Proof.
  split.
  - intros Hnil x Hx HP. by apply (filter_nil_not_elem_of P l x).
  - intros Hall. induction l as [|a l IH]; [done|].
    rewrite filter_cons_False by apply Hall, list_elem_of_here.
    apply IH. intros x Hx. by apply Hall, list_elem_of_further.
Qed.

(** The branches of the [keydown] handler. *)
Lemma handleKeyDown_cases s ctrlKey metaKey key :
  let outcome := handleKeyDown ctrlKey metaKey key s in
  let pressed := (ctrlKey || metaKey = true) ∧ key = "c" in
  let targets := filter (λ img, ImageItem.id img ∈ selectedImages s) (images s) in
  (¬ pressed ∧ outcome = CopyNothing)
  ∨ (pressed ∧ selectedImages s = ∅ ∧ outcome = CopyNothing)
  ∨ (pressed ∧ ∃ id, selectedImages s = {[ id ]}
       ∧ (((id ∉ ids s) ∧ outcome = CopyNothing)
          ∨ ∃ img, img ∈ images s ∧ ImageItem.id img = id ∧ outcome = CopyOne img))
  ∨ (pressed ∧ (1 < size (selectedImages s))%nat
       ∧ ((targets = [] ∧ outcome
                          = CopyManyThrows (ToastCopyingMany (size (selectedImages s))))
          ∨ (targets ≠ [] ∧ outcome
                            = CopyMany (ToastCopyingMany (size (selectedImages s)))
                                targets (ToastCopiedMany (size (selectedImages s)))))).
Proof.
  intros outcome pressed targets. unfold outcome, pressed, handleKeyDown.
  clear outcome pressed.
  assert (filter (λ img, ImageItem.id img ∈ elements (selectedImages s)) (images s)
          = targets) as ->.
  { apply list_filter_iff. intros img. apply elem_of_elements. }
  destruct (ctrlKey || metaKey); simpl; [|left; split; [by intros [[=] _]|done]].
  destruct (bool_decide (key = "c")) eqn:Hkey; simpl;
    [apply bool_decide_eq_true in Hkey
    |apply bool_decide_eq_false in Hkey; left; split; [by intros [_ ?]|done]].
  right.
  destruct (decide (size (selectedImages s) = 1%nat)) as [H1|H1].
  - right. left. split; [done|].
    apply size_1_elem_of in H1 as [id Hsel]. apply leibniz_equiv in Hsel.
    exists id. split; [done|]. rewrite Hsel, elements_singleton. simpl.
    destruct (List.find _ (images s)) as [img|] eqn:Hfind.
    + apply find_some_elem in Hfind as [Hin Hid]. right. by exists img.
    + left. split; [|done]. intros Hid.
      destruct (find_some_id (images s) id Hid) as (img & Hf & _).
      by rewrite Hf in Hfind.
  - destruct (decide (1 < size (selectedImages s))%nat) as [Hmany|Hfew].
    + right. right. split; [done|]. split; [done|].
      destruct (last targets) as [lst|] eqn:Hlast.
      * right. split; [|done]. intros Heq. by rewrite Heq in Hlast.
      * left. split; [by apply last_None|done].
    + left. split; [done|]. split; [|done].
      apply leibniz_equiv, size_empty_inv. lia.
Qed.

(** With the control or meta key and the key [c]: a selection of one id
    copies the first stored image with that id; a selection of several ids
    copies the stored images with a selected id, in array order (not in
    the order of selection).  The handler throws exactly when several ids
    are selected and none of them is the id of a stored image; with a
    selection that satisfies the selection invariant it never throws and,
    unless the selection is empty, it copies at least one image.  Any
    other key does nothing. *)
Theorem copy_shortcut (s : State) (ctrlKey metaKey : bool) (key : string) :
  let outcome := handleKeyDown ctrlKey metaKey key s in
  let pressed := (ctrlKey || metaKey = true) ∧ key = "c" in
  (¬ pressed → outcome = CopyNothing)
  ∧ (∀ img, outcome = CopyOne img →
       pressed ∧ img ∈ images s ∧ selectedImages s = {[ ImageItem.id img ]})
  ∧ (∀ before copied after, outcome = CopyMany before copied after →
       pressed ∧ (1 < size (selectedImages s))%nat
       ∧ copied = filter (λ img, ImageItem.id img ∈ selectedImages s) (images s)
       ∧ copied ≠ [])
  ∧ ((∃ before, outcome = CopyManyThrows before)
     ↔ pressed ∧ (1 < size (selectedImages s))%nat
       ∧ ∀ img, img ∈ images s → ImageItem.id img ∉ selectedImages s)
  ∧ (selection_valid s → pressed → selectedImages s ≠ ∅ →
       (∃ img, outcome = CopyOne img)
       ∨ (∃ before copied after, outcome = CopyMany before copied after)).
Proof.
  intros outcome pressed.
  pose proof (handleKeyDown_cases s ctrlKey metaKey key) as Hcases.
  simpl in Hcases. fold outcome pressed in Hcases.
  set (targets := filter (λ img, ImageItem.id img ∈ selectedImages s) (images s)) in *.
  clearbody outcome pressed.
  destruct Hcases as [[Hnp ->]|[(Hp & Hsel & ->)|[(Hp & id & Hsel & Hone)|(Hp & Hmany & Hcopy)]]].
  - split; [done|]. split; [done|]. split; [done|]. split; [|done].
    split; [by intros [? [=]]|by intros [? _]].
  - split; [done|]. split; [done|]. split; [done|]. split; [|done].
    split; [by intros [? [=]]|]. intros (_ & Hsz & _).
    rewrite Hsel, size_empty in Hsz. lia.
  - assert (¬ (1 < size (selectedImages s))%nat) as Hsz
      by (rewrite Hsel, size_singleton; lia).
    destruct Hone as [[Hid ->]|(img & Hin & Hid & ->)].
    + split; [done|]. split; [done|]. split; [done|]. split.
      * split; [by intros [? [=]]|]. by intros (_ & ? & _).
      * intros Hvalid _ _. destruct Hid. apply Hvalid. rewrite Hsel.
        by apply elem_of_singleton.
    + split; [done|]. split; [by intros ? [= <-]; rewrite Hid|].
      split; [done|]. split.
      * split; [by intros [? [=]]|]. by intros (_ & ? & _).
      * intros _ _ _. left. by exists img.
  - destruct Hcopy as [[Hnil ->]|[Hne ->]].
    + split; [done|]. split; [done|]. split; [done|]. split.
      * split; [|by eexists]. intros _. split; [done|]. split; [done|].
        intros img Himg. exact (proj1 (filter_nil_iff _ (images s)) Hnil img Himg).
      * intros Hvalid _ Hnonempty. exfalso.
        assert (∃ id, id ∈ selectedImages s) as [id Hid]
          by (apply size_pos_elem_of; lia).
        pose proof (Hvalid id Hid) as Hstored.
        apply list_elem_of_fmap in Hstored as (img & -> & Himg).
        exact (proj1 (filter_nil_iff _ (images s)) Hnil img Himg Hid).
    + split; [done|]. split; [done|].
      split; [by intros ? ? ? [= <- <- <-]|]. split.
      * split; [by intros [? [=]]|]. intros (_ & _ & Hnone). destruct Hne.
        exact (proj2 (filter_nil_iff _ (images s)) Hnone).
      * intros _ _ _. right. by do 3 eexists.
Qed.

(** After two selected images were deleted with their delete buttons (the
    defect of the per-image delete), the copy shortcut throws. *)
Example copy_after_dangling_selection_throws :
  let s := steps initial_state
             [ sample_load 1000 (Q2Qc (1 # 4)); sample_load 1001 (Q2Qc (1 # 4));
               ImageMouseDown (sample_press 10 10 true) (Q2Qc (4001 # 4)) 2000;
               ImageMouseDown (sample_press 10 10 true) (Q2Qc (4005 # 4)) 2000;
               ClickRemove (Q2Qc (4001 # 4));
               ClickRemove (Q2Qc (4005 # 4)) ] in
  handleKeyDown true false "c" s = CopyManyThrows (ToastCopyingMany 2).
Proof. by vm_compute. Qed.

(** * Sizes, grid and band drawing *)

(** ** Sizes in reachable states *)

Lemma well_sized_shape a b : shape a = shape b → well_sized a → well_sized b.
Proof.
  unfold shape, well_sized. intros [= Hid Hw Hh How Hoh].
  by rewrite Hw, Hh, How, Hoh.
Qed.

Lemma newImage_well_sized w h dropX dropY env :
  0 < w → 0 < h → well_sized (newImage w h dropX dropY env).
Proof.
  intros Hw Hh.
  destruct (newImage_size_spec w h dropX dropY env Hw Hh)
    as (_ & _ & Hratio & [Hw0 Hw200] & [Hh0 Hh200] & How & Hoh).
  unfold well_sized. by rewrite How, Hoh.
Qed.

Lemma reachable_well_sized s :
  reachable s → Forall well_sized (images s).
Proof.
  induction 1 as [|s ev _ IH Hen]; [by apply Forall_nil|].
  apply Forall_forall. intros img Himg.
  assert (shape img ∈ shapes (step s ev)) as Hsh
    by (by apply list_elem_of_fmap_2).
  rewrite shapes_step in Hsh.
  assert (shape img ∈ shapes s → well_sized img) as Hold.
  { intros (old & Heq & Hin)%list_elem_of_fmap.
    apply (well_sized_shape old); [done|].
    by apply (proj1 (Forall_forall _ _) IH). }
  destruct ev; try (by apply Hold).
  - apply Hold. by apply list_elem_of_filter in Hsh as [_ ?].
  - apply Hold. by apply list_elem_of_filter in Hsh as [_ ?].
  - apply elem_of_app in Hsh as [Hsh|Hsh]; [by apply Hold|].
    apply list_elem_of_singleton in Hsh. destruct Hen as (Hw & Hh & _).
    apply (well_sized_shape (newImage imgWidth imgHeight dropX dropY env)); [done|].
    by apply newImage_well_sized.
Qed.

(** In every state the page can reach, every image has a positive
    displayed width and height of at most 200 each, in the proportion of
    its original size: the size given at creation is never changed
    afterwards. *)
Theorem reachable_images_well_sized (s : State) (img : ImageItem.t) :
  reachable s →
  img ∈ images s →
  0 < ImageItem.width img ∧ ImageItem.width img ≤ Qc_of_Z 200
  ∧ 0 < ImageItem.height img ∧ ImageItem.height img ≤ Qc_of_Z 200
  ∧ ImageItem.width img * ImageItem.originalHeight img
    = ImageItem.height img * ImageItem.originalWidth img.
Proof.
  intros Hs Himg.
  exact (proj1 (Forall_forall _ _) (reachable_well_sized s Hs) img Himg).
Qed.

Lemma reachable_five_images : reachable five_images.
Proof.
  apply reachable_steps; [apply reachable_initial|].
  apply trace_enabled_check. by vm_compute.
Qed.

Lemma reachable_images_well_sized_witness :
  let img := newImage (Qc_of_Z 400) (Qc_of_Z 300) None None
               (sample_env 1000 (Q2Qc (1 # 4))) in
  (reachable five_images ∧ img ∈ images five_images)
  ∧ ImageItem.width img ≤ Qc_of_Z 200.
Proof.
  intros img.
  assert (img ∈ images five_images) as Hin by apply list_elem_of_here.
  split; [exact (conj reachable_five_images Hin)|].
  destruct (reachable_images_well_sized five_images img reachable_five_images Hin)
    as (_ & Hw & _).
  exact Hw.
Defined.

(** ** Grid arrangement *)

Lemma lt_plus_200 (a b w : Qc) : a < b + w → w ≤ Qc_of_Z 200 → a < b + Qc_of_Z 200.
Proof.
  intros Hlt Hw. eapply Qclt_le_trans; [exact Hlt|]. by apply Qcplus_le_mono_l.
Qed.

Lemma grid_cells_apart (m n : Z) :
  Qc_of_Z m < Qc_of_Z n + Qc_of_Z 200 → (m < n + 200)%Z.
Proof. rewrite <-Z2Qc_inj_add. apply Z2Qc_inj_lt. Qed.

(** After the grid arrangement of a reachable state no two images
    overlap: the cells are 220 apart and no image is larger than 200.
    Arranging a second time changes nothing. *)
Theorem arranged_images_do_not_overlap (s : State) :
  reachable s →
  let s' := resetImagePositions s in
  (∀ i j a b, i ≠ j → images s' !! i = Some a → images s' !! j = Some b →
     ¬ overlap a b)
  ∧ resetImagePositions s' = s'.
Proof.
  intros Hs s'. split.
  - intros i j a b Hij Ha Hb (Hx1 & Hx2 & Hy1 & Hy2).
    unfold s' in Ha, Hb. rewrite images_resetImagePositions in Ha, Hb.
    rewrite list_lookup_imap in Ha, Hb.
    destruct (images s !! i) as [a0|] eqn:Ha0; [|done].
    destruct (images s !! j) as [b0|] eqn:Hb0; [|done].
    cbn [fmap option_fmap option_map] in Ha, Hb.
    injection Ha as <-. injection Hb as <-.
    pose proof (reachable_well_sized s Hs) as Hsizes.
    assert (well_sized a0) as (_ & Hwa & _ & Hha & _)
      by (apply (proj1 (Forall_forall _ _) Hsizes); by eapply list_elem_of_lookup_2).
    assert (well_sized b0) as (_ & Hwb & _ & Hhb & _)
      by (apply (proj1 (Forall_forall _ _) Hsizes); by eapply list_elem_of_lookup_2).
    unfold ImageItem.with_xy in Hx1, Hx2, Hy1, Hy2.
    cbn [ImageItem.x ImageItem.y ImageItem.width ImageItem.height] in Hx1, Hx2, Hy1, Hy2.
    apply (λ H, lt_plus_200 _ _ _ H Hwb), grid_cells_apart in Hx1.
    apply (λ H, lt_plus_200 _ _ _ H Hwa), grid_cells_apart in Hx2.
    apply (λ H, lt_plus_200 _ _ _ H Hhb), grid_cells_apart in Hy1.
    apply (λ H, lt_plus_200 _ _ _ H Hha), grid_cells_apart in Hy2.
    apply Hij.
    change (3 - (Nat.divmod i 3 0 3).2)%nat with (i mod 4)%nat in *.
    change (3 - (Nat.divmod j 3 0 3).2)%nat with (j mod 4)%nat in *.
    change (Nat.divmod i 3 0 3).1 with (i / 4)%nat in *.
    change (Nat.divmod j 3 0 3).1 with (j / 4)%nat in *.
    rewrite (Nat.div_mod_eq i 4), (Nat.div_mod_eq j 4). lia.
  - unfold s', resetImagePositions, run. simpl. unfold setSelectedImages, setImages.
    simpl. f_equal. apply list_eq. intros i.
    rewrite !list_lookup_imap. by destruct (images s !! i).
Qed.

Lemma arranged_images_do_not_overlap_witness :
  reachable five_images
  ∧ resetImagePositions (resetImagePositions five_images)
    = resetImagePositions five_images.
Proof.
  split; [exact reachable_five_images|].
  destruct (arranged_images_do_not_overlap five_images reachable_five_images)
    as [_ Hagain].
  exact Hagain.
Defined.

(** ** The drawn band *)

Lemma sub_nonneg_iff (a b : Qc) : 0 ≤ b - a ↔ a ≤ b.
Proof. split; intros; qc_lra. Qed.

Lemma min_plus_abs (a b : Qc) : Math_min a b + Math_abs (b - a) = Math_max a b.
Proof.
  unfold Math_min, Math_max, Math_abs.
  destruct (decide (a ≤ b)) as [Hab|Hab].
  - rewrite decide_True by (by apply sub_nonneg_iff). ring.
  - rewrite decide_False by (by rewrite sub_nonneg_iff). ring.
Qed.

Lemma Math_abs_nonneg (a : Qc) : 0 ≤ Math_abs a.
Proof.
  unfold Math_abs. destruct (decide (0 ≤ a)) as [H|H]; [done|].
  apply Qclt_nge in H. clear -H. qc_lra.
Qed.

(** The rectangle drawn for the rubber band ([left], [top], [width],
    [height] of its style) has a width and height that are not negative
    and is exactly the region used at release: the release selects the
    images whose centre lies in the drawn rectangle, edges included. *)
Theorem drawn_band_is_selection_region (s : State) :
  isSelecting s = true →
  let '(bandLeft, bandTop, bandWidth, bandHeight) := band_style (selectionBox s) in
  0 ≤ bandWidth
  ∧ 0 ≤ bandHeight
  ∧ (∀ id, id ∈ selectedImages (handleMouseUp s)
           ↔ ∃ img, img ∈ images s ∧ ImageItem.id img = id
                    ∧ bandLeft ≤ ImageItem.x img + ImageItem.width img / 2
                    ∧ ImageItem.x img + ImageItem.width img / 2 ≤ bandLeft + bandWidth
                    ∧ bandTop ≤ ImageItem.y img + ImageItem.height img / 2
                    ∧ ImageItem.y img + ImageItem.height img / 2 ≤ bandTop + bandHeight).
Proof.
  intros Hsel. unfold band_style.
  split; [apply Math_abs_nonneg|]. split; [apply Math_abs_nonneg|].
  intros id. destruct (handleMouseUp_selecting s Hsel) as [-> _].
  rewrite !min_plus_abs. rewrite elem_of_box_selection.
  split; intros (img & Himg & Hid & Hc); exists img; (split; [done|]);
    (split; [done|]).
  - apply center_in_box_inside in Hc. unfold center_in_box in Hc. simpl in Hc.
    tauto.
  - apply center_in_box_inside. unfold center_in_box. simpl. tauto.
Qed.

Lemma drawn_band_is_selection_region_witness :
  isSelecting (banding 60 60 0 0 ∅) = true
  ∧ 0 ≤ (band_style (selectionBox (banding 60 60 0 0 ∅))).1.2.
Proof.
  assert (isSelecting (banding 60 60 0 0 ∅) = true) as Hsel by reflexivity.
  split; [exact Hsel|].
  pose proof (drawn_band_is_selection_region (banding 60 60 0 0 ∅) Hsel) as H.
  destruct (band_style (selectionBox (banding 60 60 0 0 ∅))) as [[[l t] w] h].
  destruct H as (Hw & _). exact Hw.
Defined.
